(** * SEM cropper and scaler: the editor's calibration, crop and scale-bar logic

    A shallow embedding of [components/ImageEditor.tsx], [types.ts] and the
    fallback of [services/geminiService.ts].

    JavaScript numbers are IEEE 754 binary64 values.  They are embedded as
    [spec_float] at precision 53 and maximal exponent 1024, with the
    arithmetic of [SpecFloat]; every function below computes.  JavaScript
    strings are sequences of UTF-16 code units, embedded as [list N].

    The component's [useState] cells are the fields of one record,
    [EditorState]; a handler is a function from state to state.  What a
    handler reads from the DOM (the bounding rectangle of the canvas, the
    pointer position, the text of an input) is an argument.  Drawing is
    embedded as the list of calls made on the 2D context. *)

From Stdlib Require Import ZArith NArith PArith List Bool Lia String Ascii.
From Stdlib Require Import QArith Qpower Qabs Lqa.
From Stdlib Require DecimalFacts DecimalPos.
From Stdlib Require Import Floats.SpecFloat.
Import ListNotations.

#[local] Open Scope Z_scope.

(** ** JavaScript numbers *)

Module JS.

Definition number : Type := spec_float.

Definition prec : Z := 53.
Definition emax : Z := 1024.

Definition NaN : number := S754_nan.

(** The Number value of a mathematical integer (round to nearest, ties to
    even; exact below 2^53). *)
Definition ofZ (z : Z) : number := binary_normalize prec emax z 0 false.

(** The Number value of the positive rational [p / q]. *)
Definition ofRatio (neg : bool) (p q : positive) : number :=
  SFdiv prec emax (S754_finite neg p 0) (S754_finite false q 0).

Definition add : number -> number -> number := SFadd prec emax.
Definition sub : number -> number -> number := SFsub prec emax.
Definition mul : number -> number -> number := SFmul prec emax.
Definition div : number -> number -> number := SFdiv prec emax.

(** [x < y], [x > y], [x === y] and [x !== y] on numbers. *)
Definition lt (x y : number) : bool := SFltb x y.
Definition gt (x y : number) : bool := SFltb y x.
Definition strict_eq (x y : number) : bool := SFeqb x y.

Definition isNaN (x : number) : bool :=
  match x with S754_nan => true | _ => false end.


(** Truthiness of a number: [0], [-0] and [NaN] are falsy. *)
Definition truthy (x : number) : bool :=
  match x with S754_zero _ | S754_nan => false | _ => true end.

(** [Math.max] and [Math.min] of two numbers: [NaN] is contagious and [-0]
    is below [+0]. *)
Definition Math_max (x y : number) : number :=
  match SFcompare x y with
  | None => NaN
  | Some Lt => y
  | Some Gt => x
  | Some Eq => match x with S754_zero true => y | _ => x end
  end.

Definition Math_min (x y : number) : number :=
  match SFcompare x y with
  | None => NaN
  | Some Lt => x
  | Some Gt => y
  | Some Eq => match x with S754_zero false => y | _ => x end
  end.

(** [Math.round]: the nearest integer, ties towards +Infinity; the sign of a
    zero result is the sign of the argument. *)
Definition Math_round (x : number) : number :=
  match x with
  | S754_finite s m e =>
      if 0 <=? e then x
      else
        let n := (2 * cond_Zopp s (Zpos m) + 2 ^ (- e)) / 2 ^ (1 - e) in
        if n =? 0 then S754_zero s else ofZ n
  | _ => x
  end.

Definition Math_sqrt : number -> number := SFsqrt prec emax.

(** [Math.pow(x, 2)], taken as the correctly rounded square. *)
Definition Math_pow2 (x : number) : number := mul x x.

(** *** Strings: sequences of UTF-16 code units *)

Definition jsstring : Type := list N.

(** An ASCII literal as a JavaScript string. *)
Definition str (s : string) : jsstring :=
  map N_of_ascii (list_ascii_of_string s).

(** WhiteSpace and LineTerminator code units: what [trim] strips and what
    the regular expression class [\s] matches. *)
Definition is_ws (c : N) : bool :=
  (existsb (N.eqb c)
     [9; 10; 11; 12; 13; 32; 160; 5760; 8232; 8233; 8239; 8287; 12288; 65279]
   || ((8192 <=? c) && (c <=? 8202)))%N.

Fixpoint trimStart (s : jsstring) : jsstring :=
  match s with
  | c :: r => if is_ws c then trimStart r else s
  | [] => []
  end.

Definition trim (s : jsstring) : jsstring :=
  rev (trimStart (rev (trimStart s))).

(** [s.split(/\s+/)]: the pieces between maximal runs of white space.
    [inws] says that the scan is inside such a run, [cur] is the piece being
    read, reversed. *)
Fixpoint split_ws_from (inws : bool) (cur : jsstring) (s : jsstring)
  : list jsstring :=
  match s with
  | [] => [rev cur]
  | c :: r =>
      if is_ws c then
        if inws then split_ws_from true cur r
        else rev cur :: split_ws_from true [] r
      else split_ws_from false (c :: cur) r
  end.

Definition split_ws (s : jsstring) : list jsstring := split_ws_from false [] s.

(** *** [parseFloat] *)

Definition is_digit (c : N) : bool := ((48 <=? c) && (c <=? 57))%N.

Fixpoint take_digits (s : jsstring) : jsstring * jsstring :=
  match s with
  | c :: r =>
      if is_digit c then let '(d, r') := take_digits r in (c :: d, r')
      else ([], s)
  | [] => ([], [])
  end.

Definition digits_value (ds : jsstring) : Z :=
  fold_left (fun a d => 10 * a + (Z.of_N d - 48)) ds 0.

Fixpoint starts_with (p s : jsstring) : bool :=
  match p, s with
  | [], _ => true
  | a :: p', b :: s' => N.eqb a b && starts_with p' s'
  | _ :: _, [] => false
  end.

(** The value of an ExponentPart at the head of [s], [0] when there is
    none. *)
Definition exponent_part (s : jsstring) : Z :=
  match s with
  | (101 | 69)%N :: r =>
      let '(neg, r') :=
        match r with
        | 43%N :: t => (false, t)
        | 45%N :: t => (true, t)
        | _ => (false, r)
        end in
      match fst (take_digits r') with
      | [] => 0
      | ds => cond_Zopp neg (digits_value ds)
      end
  | _ => 0
  end.

Inductive literal : Type :=
  | LitInfinity
  | LitDecimal (n : Z) (e : Z).   (* n * 10^e *)

(** The longest prefix of [s] that is a StrUnsignedDecimalLiteral. *)
Definition unsigned_literal (s : jsstring) : option literal :=
  if starts_with (str "Infinity") s then Some LitInfinity
  else
    let '(ip, r1) := take_digits s in
    let '(fp, r2) :=
      match r1 with
      | 46%N :: r => take_digits r
      | _ => ([], r1)
      end in
    match ip, fp with
    | [], [] => None
    | _, _ =>
        Some (LitDecimal (digits_value (ip ++ fp))
                (exponent_part r2 - Z.of_nat (List.length fp)))
    end.

(** The Number value of [(-1)^neg * n * 10^e] for [0 <= n]. *)
Definition ofDecimal (neg : bool) (n e : Z) : number :=
  match n with
  | Zpos p =>
      if 0 <=? e then binary_normalize prec emax (cond_Zopp neg (n * 10 ^ e)) 0 false
      else ofRatio neg p (Z.to_pos (10 ^ (- e)))
  | _ => S754_zero neg
  end.

Definition parseFloat (s : jsstring) : number :=
  let t := trimStart s in
  let '(neg, r) :=
    match t with
    | 43%N :: r => (false, r)
    | 45%N :: r => (true, r)
    | _ => (false, t)
    end in
  match unsigned_literal r with
  | None => NaN
  | Some LitInfinity => S754_infinity neg
  | Some (LitDecimal n e) => ofDecimal neg n e
  end.

(** *** [Number.prototype.toString] and [toFixed] *)

Fixpoint uint_digits (u : Decimal.uint) : jsstring :=
  match u with
  | Decimal.Nil => []
  | Decimal.D0 r => 48%N :: uint_digits r
  | Decimal.D1 r => 49%N :: uint_digits r
  | Decimal.D2 r => 50%N :: uint_digits r
  | Decimal.D3 r => 51%N :: uint_digits r
  | Decimal.D4 r => 52%N :: uint_digits r
  | Decimal.D5 r => 53%N :: uint_digits r
  | Decimal.D6 r => 54%N :: uint_digits r
  | Decimal.D7 r => 55%N :: uint_digits r
  | Decimal.D8 r => 56%N :: uint_digits r
  | Decimal.D9 r => 57%N :: uint_digits r
  end.

(** The decimal digits of a non-negative integer. *)
Definition digits_of (z : Z) : jsstring :=
  match z with
  | Zpos p => uint_digits (Pos.to_uint p)
  | _ => [48%N]
  end.

Definition zeros (n : Z) : jsstring := repeat 48%N (Z.to_nat n).

(** The exact value [p / q] of a finite non-zero magnitude [m * 2^e]. *)
Definition ratio_of (m : positive) (e : Z) : Z * Z :=
  if 0 <=? e then (Zpos m * 2 ^ e, 1) else (Zpos m, 2 ^ (- e)).

(** [floor (p / q / 10^j)] and the remainder as a fraction [r / d]. *)
Definition scale10 (p q j : Z) : Z * Z * Z :=
  let '(num, den) := if 0 <=? j then (p, q * 10 ^ j) else (p * 10 ^ (- j), q) in
  (num / den, num mod den, den).

(** The [n] with [10^(n-1) <= p / q < 10^n]. *)
Definition magnitude10 (p q : Z) : Z :=
  if q <=? p then Z.of_nat (List.length (digits_of (p / q)))
  else 1 - Z.of_nat (List.length (digits_of ((q - 1) / p))).

(** The Number value of [s * 10^j] for [0 < s]. *)
Definition ofScaled (s j : Z) : number := ofDecimal false s j.

Definition same_number (a b : number) : bool :=
  match a, b with
  | S754_finite s1 m1 e1, S754_finite s2 m2 e2 =>
      Bool.eqb s1 s2 && Pos.eqb m1 m2 && Z.eqb e1 e2
  | _, _ => false
  end.

(** A digit string of [k] digits that reads back as [x = p / q]: the pair
    [(n, s)] of Number::toString, if there is one with exactly [k] digits. *)
Definition digits_at (x : number) (p q n0 k : Z) : option (Z * Z) :=
  let ok n s :=
    (10 ^ (k - 1) <=? s) && (s <? 10 ^ k) && same_number (ofScaled s (n - k)) x in
  let '(lo, r, d) := scale10 p q (n0 - k) in
  let hi := lo + 1 in
  match ok n0 lo, ok n0 hi with
  | true, true =>
      match 2 * r ?= d with
      | Lt => Some (n0, lo)
      | Gt => Some (n0, hi)
      | Eq => Some (n0, if Z.even lo then lo else hi)
      end
  | true, false => Some (n0, lo)
  | false, true => Some (n0, hi)
  | false, false =>
      if ok (n0 + 1) (10 ^ (k - 1)) then Some (n0 + 1, 10 ^ (k - 1)) else None
  end.

Fixpoint shortest_from (x : number) (p q n0 k : Z) (fuel : nat)
  : Z * Z * Z :=
  match fuel with
  | O => (n0, k, fst (fst (scale10 p q (n0 - k))))
  | S fuel' =>
      match digits_at x p q n0 k with
      | Some (n, s) => (n, k, s)
      | None => shortest_from x p q n0 (k + 1) fuel'
      end
  end.

(** Number::toString of the finite positive number [m * 2^e]. *)
Definition positive_toString (m : positive) (e : Z) : jsstring :=
  let '(p, q) := ratio_of m e in
  let '(n, k, s) :=
    shortest_from (S754_finite false m e) p q (magnitude10 p q) 1 17 in
  let ds := digits_of s in
  if (k <=? n) && (n <=? 21) then ds ++ zeros (n - k)
  else if (0 <? n) && (n <=? 21) then
    firstn (Z.to_nat n) ds ++ str "." ++ skipn (Z.to_nat n) ds
  else if (-6 <? n) && (n <=? 0) then str "0." ++ zeros (- n) ++ ds
  else
    let ex := (if 0 <=? n - 1 then str "e+" else str "e-")
                ++ digits_of (Z.abs (n - 1)) in
    match ds with
    | [d] => d :: ex
    | d :: rest => d :: str "." ++ rest ++ ex
    | [] => ex
    end.

Definition Number_toString (x : number) : jsstring :=
  match x with
  | S754_nan => str "NaN"
  | S754_zero _ => str "0"
  | S754_infinity s => (if s then str "-" else []) ++ str "Infinity"
  | S754_finite s m e => (if s then str "-" else []) ++ positive_toString m e
  end.

(** [x.toFixed(1)]. *)
Definition toFixed1 (x : number) : jsstring :=
  match x with
  | S754_finite s m e =>
      if SFltb (S754_finite false m e) (ofZ (10 ^ 21)) then
        let '(p, q) := ratio_of m e in
        let ds := digits_of ((20 * p + q) / (2 * q)) in
        let ds := if (Z.of_nat (List.length ds) <=? 1) then 48%N :: ds else ds in
        let k := List.length ds in
        (if s then str "-" else [])
          ++ firstn (k - 1) ds ++ str "." ++ skipn (k - 1) ds
      else Number_toString x
  | S754_zero _ => str "0.0"
  | _ => Number_toString x
  end.

End JS.

Declare Scope num_scope.
Delimit Scope num_scope with num.
Bind Scope num_scope with JS.number.
Infix "+" := JS.add : num_scope.
Infix "-" := JS.sub : num_scope.
Infix "*" := JS.mul : num_scope.
Infix "/" := JS.div : num_scope.

(** ** [types.ts] *)

Inductive Position : Type :=
  | bottom_left | bottom_right | top_left | top_right.

Record ScaleBarSettings : Type := {
  show : bool;
  lengthValue : JS.number;
  lengthUnit : list N;
  barHeight : JS.number;
  fontSize : JS.number;
  fontColor : list N;
  barColor : list N;
  position : Position;
  overlayPadding : JS.number
}.

Record CalibrationData : Type := {
  pixels : JS.number;
  knownDistance : JS.number;
  unit_ : list N
}.

Record CropRect : Type := {
  x : JS.number;
  y : JS.number;
  width : JS.number;
  height : JS.number
}.

Inductive AppState : Type := UPLOAD | CALIBRATE | EDIT.

Record SemAnalysisResult : Type := {
  suggestedCropY : JS.number;
  detectedScaleText : option (list N)
}.

Record Point : Type := { px : JS.number; py : JS.number }.

(** ** The DOM objects the editor reads *)

(** A loaded image: [img.width] and [img.height] are its intrinsic
    dimensions, unsigned integers. *)
Record HTMLImageElement : Type := { naturalWidth : N; naturalHeight : N }.

Definition img_width (img : HTMLImageElement) : JS.number :=
  JS.ofZ (Z.of_N (naturalWidth img)).
Definition img_height (img : HTMLImageElement) : JS.number :=
  JS.ofZ (Z.of_N (naturalHeight img)).

(** Truncation towards zero of a number, [0] for [NaN] and the infinities. *)
Definition truncate (v : JS.number) : Z :=
  match v with
  | S754_finite s m e =>
      cond_Zopp s (if 0 <=? e then Zpos m * 2 ^ e else Zpos m / 2 ^ (- e))
  | _ => 0
  end.

(** Assigning [v] to [canvas.width] or [canvas.height] and reading it back:
    the value is converted to an unsigned 32-bit integer, and the default
    stands in when the result exceeds 2147483647. *)
Definition set_dimension (default : Z) (v : JS.number) : JS.number :=
  let n := truncate v mod 2 ^ 32 in
  JS.ofZ (if n <=? 2147483647 then n else default).

Record DOMRect : Type := {
  left : JS.number;
  top : JS.number;
  rect_width : JS.number;
  rect_height : JS.number
}.

Record MouseEvent : Type := { clientX : JS.number; clientY : JS.number }.

(** The calls made on a 2D context and its canvas, in order. *)
Inductive CanvasCmd : Type :=
  | SetWidth (w : JS.number)
  | SetHeight (h : JS.number)
  | DrawImage (dx dy : JS.number)
  | DrawImageSub (sx sy sw sh dx dy dw dh : JS.number)
  | FillStyle (s : JS.jsstring)
  | FillRect (rx ry rw rh : JS.number)
  | StrokeStyle (s : JS.jsstring)
  | LineWidth (w : JS.number)
  | SetLineDash (d : list JS.number)
  | StrokeRect (rx ry rw rh : JS.number)
  | BeginPath
  | Arc (cx cy r a0 a1 : JS.number)
  | Fill
  | MoveTo (mx my : JS.number)
  | LineTo (lx ly : JS.number)
  | Stroke
  | Font (f : JS.jsstring)
  | TextAlign (a : JS.jsstring)
  | TextBaseline (b : JS.jsstring)
  | FillText (t : JS.jsstring) (tx ty : JS.number)
  | Download (name : JS.jsstring) (mime : JS.jsstring).

(** ** [ImageEditor]: state *)

Record EditorState : Type := {
  imageObj : option HTMLImageElement;
  crop : CropRect;
  mode : AppState;
  usePercent : bool;
  calStart : option Point;
  calEnd : option Point;
  calibration : CalibrationData;
  cursorPos : option Point;
  settings : ScaleBarSettings
}.

Definition micro_m : JS.jsstring := [181%N; 109%N].

(** The [useState] initial values. *)
Definition initialState : EditorState := {|
  imageObj := None;
  crop := {| x := JS.ofZ 0; y := JS.ofZ 0; width := JS.ofZ 0; height := JS.ofZ 0 |};
  mode := CALIBRATE;
  usePercent := false;
  calStart := None;
  calEnd := None;
  calibration :=
    {| pixels := JS.ofZ 0; knownDistance := JS.ofZ 10; unit_ := micro_m |};
  cursorPos := None;
  settings := {|
    show := true;
    lengthValue := JS.ofZ 5;
    lengthUnit := micro_m;
    barHeight := JS.ofZ 8;
    fontSize := JS.ofZ 24;
    fontColor := JS.str "#ffffff";
    barColor := JS.str "#ffffff";
    position := bottom_right;
    overlayPadding := JS.ofZ 40
  |}
|}.

(** The state setters. *)
Definition setImageObj (v : option HTMLImageElement) (st : EditorState) :=
  {| imageObj := v; crop := crop st; mode := mode st;
     usePercent := usePercent st; calStart := calStart st;
     calEnd := calEnd st; calibration := calibration st;
     cursorPos := cursorPos st; settings := settings st |}.

Definition setCrop (f : CropRect -> CropRect) (st : EditorState) :=
  {| imageObj := imageObj st; crop := f (crop st); mode := mode st;
     usePercent := usePercent st; calStart := calStart st;
     calEnd := calEnd st; calibration := calibration st;
     cursorPos := cursorPos st; settings := settings st |}.

Definition setMode (v : AppState) (st : EditorState) :=
  {| imageObj := imageObj st; crop := crop st; mode := v;
     usePercent := usePercent st; calStart := calStart st;
     calEnd := calEnd st; calibration := calibration st;
     cursorPos := cursorPos st; settings := settings st |}.

Definition setUsePercent (v : bool) (st : EditorState) :=
  {| imageObj := imageObj st; crop := crop st; mode := mode st;
     usePercent := v; calStart := calStart st;
     calEnd := calEnd st; calibration := calibration st;
     cursorPos := cursorPos st; settings := settings st |}.

Definition setCalStart (v : option Point) (st : EditorState) :=
  {| imageObj := imageObj st; crop := crop st; mode := mode st;
     usePercent := usePercent st; calStart := v;
     calEnd := calEnd st; calibration := calibration st;
     cursorPos := cursorPos st; settings := settings st |}.

Definition setCalEnd (v : option Point) (st : EditorState) :=
  {| imageObj := imageObj st; crop := crop st; mode := mode st;
     usePercent := usePercent st; calStart := calStart st;
     calEnd := v; calibration := calibration st;
     cursorPos := cursorPos st; settings := settings st |}.

Definition setCalibration (f : CalibrationData -> CalibrationData)
  (st : EditorState) :=
  {| imageObj := imageObj st; crop := crop st; mode := mode st;
     usePercent := usePercent st; calStart := calStart st;
     calEnd := calEnd st; calibration := f (calibration st);
     cursorPos := cursorPos st; settings := settings st |}.

Definition setCursorPos (v : option Point) (st : EditorState) :=
  {| imageObj := imageObj st; crop := crop st; mode := mode st;
     usePercent := usePercent st; calStart := calStart st;
     calEnd := calEnd st; calibration := calibration st;
     cursorPos := v; settings := settings st |}.

Definition setSettings (f : ScaleBarSettings -> ScaleBarSettings)
  (st : EditorState) :=
  {| imageObj := imageObj st; crop := crop st; mode := mode st;
     usePercent := usePercent st; calStart := calStart st;
     calEnd := calEnd st; calibration := calibration st;
     cursorPos := cursorPos st; settings := f (settings st) |}.

(** ** [geminiService.ts]: the fallback of [analyzeSemImage]

    [attempt] is the outcome of the [try] block (the request, the check of
    the response text and [JSON.parse]): a result, or [None] when anything
    in it threw. *)
Definition analyzeSemImage (attempt : option SemAnalysisResult)
  : SemAnalysisResult :=
  match attempt with
  | Some r => r
  | None => {| suggestedCropY := JS.ofZ 0; detectedScaleText := None |}
  end.

(** ** [ImageEditor]: the image-load effect *)

Definition onload (suggestedCropY : JS.number)
  (initialScaleText : option JS.jsstring) (img : HTMLImageElement)
  (st : EditorState) : EditorState :=
  let st1 :=
    setCrop (fun _ =>
      {| x := JS.ofZ 0;
         y := JS.ofZ 0;
         width := img_width img;
         height := if JS.gt suggestedCropY (JS.ofZ 0) then suggestedCropY
                   else img_height img |})
      (setImageObj (Some img) st) in
  match initialScaleText with
  | Some ((_ :: _) as text) =>
      let parts := JS.split_ws (JS.trim text) in
      if (2 <=? List.length parts)%nat then
        let val := JS.parseFloat (nth 0 parts []) in
        let unit := nth 1 parts [] in
        if negb (JS.isNaN val) then
          setSettings (fun prev =>
            {| show := show prev; lengthValue := JS.div val (JS.ofZ 2);
               lengthUnit := unit; barHeight := barHeight prev;
               fontSize := fontSize prev; fontColor := fontColor prev;
               barColor := barColor prev; position := position prev;
               overlayPadding := overlayPadding prev |})
            (setCalibration (fun prev =>
               {| pixels := pixels prev; knownDistance := val; unit_ := unit |})
               st1)
        else st1
      else st1
  | _ => st1
  end.

(** [App]: the editor is mounted with the analysis result as its props. *)
Definition mountEditor (r : SemAnalysisResult) (img : HTMLImageElement)
  : EditorState :=
  onload (suggestedCropY r) (detectedScaleText r) img initialState.

(** ** [ImageEditor]: the canvas *)

(** The size of the main canvas once [draw] has run: a fresh canvas is
    300 by 150, and [draw] gives it the size of the loaded image. *)
Definition canvas_width (st : EditorState) : JS.number :=
  match imageObj st with
  | Some img => set_dimension 300 (img_width img)
  | None => JS.ofZ 300
  end.

Definition canvas_height (st : EditorState) : JS.number :=
  match imageObj st with
  | Some img => set_dimension 150 (img_height img)
  | None => JS.ofZ 150
  end.

(** The pointer position of [e] in canvas pixels. *)
Definition canvas_point (rect : DOMRect) (e : MouseEvent) (st : EditorState)
  : Point :=
  let scaleX := JS.div (canvas_width st) (rect_width rect) in
  let scaleY := JS.div (canvas_height st) (rect_height rect) in
  {| px := JS.mul (JS.sub (clientX e) (left rect)) scaleX;
     py := JS.mul (JS.sub (clientY e) (top rect)) scaleY |}.

(** ** [ImageEditor]: calibration *)

Definition distance (a b : Point) : JS.number :=
  JS.Math_sqrt
    (JS.add (JS.Math_pow2 (JS.sub (px b) (px a)))
            (JS.Math_pow2 (JS.sub (py b) (py a)))).

Definition setPixels (v : JS.number) (prev : CalibrationData)
  : CalibrationData :=
  {| pixels := v; knownDistance := knownDistance prev; unit_ := unit_ prev |}.

(** [rect] is what [getBoundingClientRect] returns for the canvas, which is
    mounted whenever the editor is. *)
Definition handleCanvasClick (rect : DOMRect) (e : MouseEvent)
  (st : EditorState) : EditorState :=
  match mode st with
  | CALIBRATE =>
      let p := canvas_point rect e st in
      match calStart st with
      | None => setCalStart (Some p) st
      | Some start =>
          match calEnd st with
          | None =>
              let dist := distance start p in
              setCalibration (setPixels dist) (setCalEnd (Some p) st)
          | Some _ => setCalEnd None (setCalStart (Some p) st)
          end
      end
  | _ => st
  end.

Definition handleMouseMove (rect : DOMRect) (e : MouseEvent)
  (st : EditorState) : EditorState :=
  match mode st with
  | CALIBRATE => setCursorPos (Some (canvas_point rect e st)) st
  | _ => st
  end.

Definition handleMouseLeave (st : EditorState) : EditorState :=
  setCursorPos None st.

(** The "Reset Points" button. *)
Definition resetPoints (st : EditorState) : EditorState :=
  setCalibration (setPixels (JS.ofZ 0)) (setCalEnd None (setCalStart None st)).

(** The "Real Length" and "Unit" fields; [v] is [Number(e.target.value)]. *)
Definition changeKnownDistance (v : JS.number) (st : EditorState)
  : EditorState :=
  setCalibration (fun p =>
    {| pixels := pixels p; knownDistance := v; unit_ := unit_ p |}) st.

Definition changeUnit (u : JS.jsstring) (st : EditorState) : EditorState :=
  setCalibration (fun p =>
    {| pixels := pixels p; knownDistance := knownDistance p; unit_ := u |}) st.

(** ** [ImageEditor]: crop insets *)

Inductive Inset : Type := top_inset | bottom_inset | left_inset | right_inset.

Definition getDisplayValue (usePercent : bool) (val max : JS.number)
  : JS.jsstring :=
  if usePercent then JS.toFixed1 (JS.mul (JS.div val max) (JS.ofZ 100))
  else JS.Number_toString (JS.Math_round val).

Definition parseInputValue (usePercent : bool) (val : JS.jsstring)
  (max : JS.number) : JS.number :=
  let num := JS.parseFloat val in
  if JS.isNaN num then JS.ofZ 0
  else if usePercent then
    JS.Math_round (JS.mul (JS.div num (JS.ofZ 100)) max)
  else JS.Math_round num.

Definition updateCropInset (type : Inset) (valueStr : JS.jsstring)
  (st : EditorState) : EditorState :=
  match imageObj st with
  | None => st
  | Some img =>
      let w := img_width img in
      let h := img_height img in
      let val :=
        match type with
        | top_inset | bottom_inset => parseInputValue (usePercent st) valueStr h
        | left_inset | right_inset => parseInputValue (usePercent st) valueStr w
        end in
      setCrop (fun prev =>
        match type with
        | top_inset =>
            let bottomEdge := JS.add (y prev) (height prev) in
            let next_y :=
              JS.Math_max (JS.ofZ 0)
                (JS.Math_min val (JS.sub bottomEdge (JS.ofZ 10))) in
            {| x := x prev; y := next_y; width := width prev;
               height := JS.sub bottomEdge next_y |}
        | bottom_inset =>
            let newHeight := JS.sub (JS.sub h (y prev)) val in
            {| x := x prev; y := y prev; width := width prev;
               height := JS.Math_max (JS.ofZ 10) newHeight |}
        | left_inset =>
            let rightEdge := JS.add (x prev) (width prev) in
            let next_x :=
              JS.Math_max (JS.ofZ 0)
                (JS.Math_min val (JS.sub rightEdge (JS.ofZ 10))) in
            {| x := next_x; y := y prev;
               width := JS.sub rightEdge next_x; height := height prev |}
        | right_inset =>
            let newWidth := JS.sub (JS.sub w (x prev)) val in
            {| x := x prev; y := y prev;
               width := JS.Math_max (JS.ofZ 10) newWidth;
               height := height prev |}
        end) st
  end.

(** [imageObj?.height || 1] and [imageObj?.width || 1]. *)
Definition height_or_1 (st : EditorState) : JS.number :=
  match imageObj st with
  | Some img => if JS.truthy (img_height img) then img_height img else JS.ofZ 1
  | None => JS.ofZ 1
  end.

Definition width_or_1 (st : EditorState) : JS.number :=
  match imageObj st with
  | Some img => if JS.truthy (img_width img) then img_width img else JS.ofZ 1
  | None => JS.ofZ 1
  end.

(** The value shown in each inset field. *)
Definition insetValue (type : Inset) (st : EditorState) : JS.jsstring :=
  match type with
  | top_inset => getDisplayValue (usePercent st) (y (crop st)) (height_or_1 st)
  | bottom_inset =>
      getDisplayValue (usePercent st)
        match imageObj st with
        | Some img =>
            JS.sub (img_height img) (JS.add (y (crop st)) (height (crop st)))
        | None => JS.ofZ 0
        end
        (height_or_1 st)
  | left_inset => getDisplayValue (usePercent st) (x (crop st)) (width_or_1 st)
  | right_inset =>
      getDisplayValue (usePercent st)
        match imageObj st with
        | Some img =>
            JS.sub (img_width img) (JS.add (x (crop st)) (width (crop st)))
        | None => JS.ofZ 0
        end
        (width_or_1 st)
  end.

(** ** [ImageEditor]: drawing *)

(** [Math.PI]. *)
Definition Math_PI : JS.number := S754_finite false 7074237752028440 (-51).

(** The label [`${lengthValue} ${lengthUnit}`] and the font
    [`bold ${fontSize}px Arial, sans-serif`]. *)
Definition bar_label (s : ScaleBarSettings) : JS.jsstring :=
  JS.Number_toString (lengthValue s) ++ JS.str " " ++ lengthUnit s.

Definition bar_font (s : ScaleBarSettings) : JS.jsstring :=
  JS.str "bold " ++ JS.Number_toString (fontSize s)
    ++ JS.str "px Arial, sans-serif".

(** Step 4 of [draw]: the new scale bar over the preview. *)
Definition draw_scale_bar (st : EditorState) : list CanvasCmd :=
  let settings := settings st in
  let calibration := calibration st in
  let crop := crop st in
  match mode st with
  | EDIT =>
      if show settings && JS.gt (pixels calibration) (JS.ofZ 0) then
        let pixelsPerUnit :=
          JS.div (pixels calibration) (knownDistance calibration) in
        let barPixelWidth := JS.mul (lengthValue settings) pixelsPerUnit in
        let p := overlayPadding settings in
        let '(bx, by_) :=
          match position settings with
          | bottom_right =>
              (JS.sub (JS.sub (JS.add (x crop) (width crop)) barPixelWidth) p,
               JS.sub (JS.add (y crop) (height crop)) p)
          | bottom_left =>
              (JS.add (x crop) p,
               JS.sub (JS.add (y crop) (height crop)) p)
          | top_right =>
              (JS.sub (JS.sub (JS.add (x crop) (width crop)) barPixelWidth) p,
               JS.add (JS.add (y crop) p) (fontSize settings))
          | top_left =>
              (JS.add (x crop) p,
               JS.add (JS.add (y crop) p) (fontSize settings))
          end in
        [ FillStyle (barColor settings);
          FillRect bx by_ barPixelWidth (barHeight settings);
          FillStyle (fontColor settings);
          Font (bar_font settings);
          TextAlign (JS.str "center");
          TextBaseline (JS.str "bottom");
          FillText (bar_label settings)
            (JS.add bx (JS.div barPixelWidth (JS.ofZ 2)))
            (JS.sub by_ (JS.ofZ 8)) ]
      else []
  | _ => []
  end.

(** Step 3 of [draw]: the calibration points and the line between them. *)
Definition draw_calibration (st : EditorState) : list CanvasCmd :=
  let dot (p : Point) :=
    [ FillStyle (JS.str "#3b82f6"); BeginPath;
      Arc (px p) (py p) (JS.ofZ 5) (JS.ofZ 0) (JS.mul Math_PI (JS.ofZ 2));
      Fill ] in
  match mode st with
  | CALIBRATE =>
      match calStart st with Some p => dot p | None => [] end
      ++ match calEnd st with Some p => dot p | None => [] end
      ++ match calStart st, calEnd st with
         | Some a, Some b =>
             [ StrokeStyle (JS.str "#3b82f6"); LineWidth (JS.ofZ 3);
               BeginPath; MoveTo (px a) (py a); LineTo (px b) (py b); Stroke ]
         | _, _ => []
         end
  | _ => []
  end.

(** [draw], on a canvas whose size is [cw] by [ch] when it is called. *)
Definition draw (cw ch : JS.number) (st : EditorState) : list CanvasCmd :=
  match imageObj st with
  | None => []
  | Some img =>
      let resize :=
        negb (JS.strict_eq cw (img_width img))
        || negb (JS.strict_eq ch (img_height img)) in
      let cw' := if resize then set_dimension 300 (img_width img) else cw in
      let ch' := if resize then set_dimension 150 (img_height img) else ch in
      let crop := crop st in
      (if resize then [SetWidth (img_width img); SetHeight (img_height img)]
       else [])
      ++ [ DrawImage (JS.ofZ 0) (JS.ofZ 0);
           FillStyle (JS.str "rgba(0, 0, 0, 0.7)");
           FillRect (JS.ofZ 0) (JS.ofZ 0) cw' (y crop);
           FillRect (JS.ofZ 0) (JS.add (y crop) (height crop)) cw'
             (JS.sub ch' (JS.add (y crop) (height crop)));
           FillRect (JS.ofZ 0) (y crop) (x crop) (height crop);
           FillRect (JS.add (x crop) (width crop)) (y crop)
             (JS.sub cw' (JS.add (x crop) (width crop))) (height crop);
           StrokeStyle (JS.str "#ef4444");
           LineWidth (JS.ofZ 2);
           SetLineDash [JS.ofZ 10; JS.ofZ 10];
           StrokeRect (x crop) (y crop) (width crop) (height crop);
           SetLineDash [] ]
      ++ draw_calibration st
      ++ draw_scale_bar st
  end.

(** ** [ImageEditor]: export *)

(** The scale bar of [handleDownload], on a canvas of [tw] by [th]. *)
Definition download_scale_bar (tw th : JS.number) (st : EditorState)
  : list CanvasCmd :=
  let settings := settings st in
  let calibration := calibration st in
  if show settings && JS.gt (pixels calibration) (JS.ofZ 0) then
    let pixelsPerUnit :=
      JS.div (pixels calibration) (knownDistance calibration) in
    let barPixelWidth := JS.mul (lengthValue settings) pixelsPerUnit in
    let p := overlayPadding settings in
    let '(bx, by_) :=
      match position settings with
      | bottom_right => (JS.sub (JS.sub tw barPixelWidth) p, JS.sub th p)
      | bottom_left => (p, JS.sub th p)
      | top_right =>
          (JS.sub (JS.sub tw barPixelWidth) p, JS.add p (fontSize settings))
      | top_left => (p, JS.add p (fontSize settings))
      end in
    [ FillStyle (barColor settings);
      FillRect bx (JS.sub by_ (barHeight settings)) barPixelWidth
        (barHeight settings);
      FillStyle (fontColor settings);
      Font (bar_font settings);
      TextAlign (JS.str "center");
      TextBaseline (JS.str "bottom");
      FillText (bar_label settings)
        (JS.add bx (JS.div barPixelWidth (JS.ofZ 2)))
        (JS.sub (JS.sub by_ (barHeight settings)) (JS.ofZ 8)) ]
  else [].

Definition handleDownload (st : EditorState) : list CanvasCmd :=
  match imageObj st with
  | None => []
  | Some img =>
      let crop := crop st in
      let tw := set_dimension 300 (width crop) in
      let th := set_dimension 150 (height crop) in
      [ SetWidth (width crop); SetHeight (height crop);
        DrawImageSub (x crop) (y crop) (width crop) (height crop)
          (JS.ofZ 0) (JS.ofZ 0) (width crop) (height crop) ]
      ++ download_scale_bar tw th st
      ++ [ Download (JS.str "sem-processed.png") (JS.str "image/png") ]
  end.

(** The [disabled] attribute of the export button. *)
Definition exportDisabled (st : EditorState) : bool :=
  JS.strict_eq (pixels (calibration st)) (JS.ofZ 0).

(** A click on the export button, which is rendered in [EDIT] mode only; a
    disabled button fires no handler. *)
Definition clickExport (st : EditorState) : list CanvasCmd :=
  match mode st with
  | EDIT => if exportDisabled st then [] else handleDownload st
  | _ => []
  end.

(** ** The scale-bar placement as the specification words it

    The reference rectangle [R] is the crop rectangle in the preview and the
    output rectangle in the export. *)

Record Rect : Type := {
  r_left : JS.number;
  r_top : JS.number;
  r_right : JS.number;
  r_bottom : JS.number
}.

Definition spec_anchor (corner : Position) (R : Rect)
  (barPixelWidth p fontSize : JS.number) : JS.number * JS.number :=
  match corner with
  | bottom_right =>
      (JS.sub (JS.sub (r_right R) barPixelWidth) p, JS.sub (r_bottom R) p)
  | bottom_left => (JS.add (r_left R) p, JS.sub (r_bottom R) p)
  | top_right =>
      (JS.sub (JS.sub (r_right R) barPixelWidth) p,
       JS.add (JS.add (r_top R) p) fontSize)
  | top_left => (JS.add (r_left R) p, JS.add (JS.add (r_top R) p) fontSize)
  end.

Definition crop_rect (c : CropRect) : Rect :=
  {| r_left := x c; r_top := y c;
     r_right := JS.add (x c) (width c);
     r_bottom := JS.add (y c) (height c) |}.

Definition output_rect (tw th : JS.number) : Rect :=
  {| r_left := JS.ofZ 0; r_top := JS.ofZ 0; r_right := tw; r_bottom := th |}.

(** The scale bar in a list of calls: the rectangle that was filled last
    when the label is written. *)
Fixpoint rect_before_text
  (last : option (JS.number * JS.number * JS.number * JS.number))
  (cmds : list CanvasCmd)
  : option (JS.number * JS.number * JS.number * JS.number) :=
  match cmds with
  | [] => None
  | FillRect rx ry rw rh :: rest =>
      rect_before_text (Some (rx, ry, rw, rh)) rest
  | FillText _ _ _ :: _ => last
  | _ :: rest => rect_before_text last rest
  end.

Definition bar_rect (cmds : list CanvasCmd)
  : option (JS.number * JS.number * JS.number * JS.number) :=
  rect_before_text None cmds.

(** The crop bounds of the specification, for an image of [w] by [h]. *)
Definition crop_in_bounds (w h : JS.number) (c : CropRect) : bool :=
  SFleb (JS.ofZ 10) (width c) && SFleb (JS.ofZ 10) (height c)
  && SFleb (JS.ofZ 0) (x c) && SFleb (JS.ofZ 0) (y c)
  && SFleb (JS.add (x c) (width c)) w
  && SFleb (JS.add (y c) (height c)) h.

(** ** Sample sessions *)

Definition sem_image : HTMLImageElement :=
  {| naturalWidth := 1000; naturalHeight := 800 |}.

Definition small_image : HTMLImageElement :=
  {| naturalWidth := 100; naturalHeight := 100 |}.

(** The canvas shown at its own size. *)
Definition full_rect (img : HTMLImageElement) : DOMRect :=
  {| left := JS.ofZ 0; top := JS.ofZ 0;
     rect_width := img_width img; rect_height := img_height img |}.

Definition click_at (cx cy : Z) : MouseEvent :=
  {| clientX := JS.ofZ cx; clientY := JS.ofZ cy |}.

Definition at_point (cx cy : Z) : Point :=
  {| px := JS.ofZ cx; py := JS.ofZ cy |}.

(** The session of the specification's scenario: a 1000 by 800 image, the
    service suggesting a crop line at 700 and reading "10 µm". *)
Definition scenario : EditorState :=
  mountEditor
    {| suggestedCropY := JS.ofZ 700;
       detectedScaleText := Some (JS.str "10 " ++ micro_m) |}
    sem_image.

(** A session after a failure of the service, on a 100 by 100 image. *)
Definition fallback_session : EditorState :=
  mountEditor (analyzeSemImage None) small_image.

(** The scenario calibrated by clicks at (0,0) and (30,40). *)
Definition calibrated : EditorState :=
  handleCanvasClick (full_rect sem_image) (click_at 30 40)
    (handleCanvasClick (full_rect sem_image) (click_at 0 0) scenario).

(** A tall image, 1280 by 1024, after a failure of the service, with the
    insets shown in percent. *)
Definition tall_image : HTMLImageElement :=
  {| naturalWidth := 1280; naturalHeight := 1024 |}.

Definition tall_session : EditorState :=
  setUsePercent true (mountEditor (analyzeSemImage None) tall_image).

(** ** What the load effect leaves in the calibration and the settings *)

(** Seeded with the number [v] and the unit [u]. *)
Definition seeded_with (st : EditorState) (v : JS.number) (u : JS.jsstring)
  : Prop :=
  calibration st = {| pixels := JS.ofZ 0; knownDistance := v; unit_ := u |}
  /\ lengthValue (settings st) = JS.div v (JS.ofZ 2)
  /\ lengthUnit (settings st) = u.

(** Left at the initial values. *)
Definition unseeded (st : EditorState) : Prop :=
  calibration st = calibration initialState
  /\ settings st = settings initialState.

(** No white space in [s]. *)
Definition no_ws (s : JS.jsstring) : bool :=
  forallb (fun c => negb (JS.is_ws c)) s.

(** Only white space in [s]. *)
Definition all_ws (s : JS.jsstring) : bool := forallb JS.is_ws s.

(** ** Integers as numbers

    The float of a positive integer [p] below 2^53: the mantissa is [p]
    shifted to 53 digits. *)
Definition mant (p : positive) : positive :=
  Z.to_pos (Z.pos p * 2 ^ (53 - Z.pos (digits2_pos p))).

Definition canon (s : bool) (p : positive) : JS.number :=
  S754_finite s (mant p) (Z.pos (digits2_pos p) - 53).

(** Integers that stay below 2^53 through the sums of three terms that the
    crop edits form. *)
Definition safe (z : Z) : Prop := Z.abs z < 2 ^ 50.

(** Integer coordinates whose squared differences add up below 2^53. *)
Definition small (z : Z) : Prop := Z.abs z < 2 ^ 25.

(** ** The crop edits as the specification words them, on integer pixels *)

Record ZCrop : Type := { zx : Z; zy : Z; zw : Z; zh : Z }.

Definition crop_of (c : ZCrop) : CropRect :=
  {| x := JS.ofZ (zx c); y := JS.ofZ (zy c);
     width := JS.ofZ (zw c); height := JS.ofZ (zh c) |}.

Definition clamp (value lo hi : Z) : Z := Z.max lo (Z.min value hi).

Definition spec_inset_edit (type : Inset) (imageWidth imageHeight value : Z)
  (c : ZCrop) : ZCrop :=
  match type with
  | top_inset =>
      let y' := clamp value 0 (zy c + zh c - 10) in
      {| zx := zx c; zy := y'; zw := zw c; zh := zy c + zh c - y' |}
  | bottom_inset =>
      {| zx := zx c; zy := zy c; zw := zw c;
         zh := Z.max 10 (imageHeight - zy c - value) |}
  | left_inset =>
      let x' := clamp value 0 (zx c + zw c - 10) in
      {| zx := x'; zy := zy c; zw := zx c + zw c - x'; zh := zh c |}
  | right_inset =>
      {| zx := zx c; zy := zy c;
         zw := Z.max 10 (imageWidth - zx c - value); zh := zh c |}
  end.

(** The bounds of the specification on integer pixels. *)
Definition zcrop_in_bounds (imageWidth imageHeight : Z) (c : ZCrop) : Prop :=
  10 <= zw c /\ 10 <= zh c /\ 0 <= zx c /\ 0 <= zy c
  /\ zx c + zw c <= imageWidth /\ zy c + zh c <= imageHeight.

(** The dimension an inset is measured against. *)
Definition inset_dimension (type : Inset) (img : HTMLImageElement)
  : JS.number :=
  match type with
  | top_inset | bottom_inset => img_height img
  | left_inset | right_inset => img_width img
  end.

(** ** [ImageEditor]: the scale-bar fields of the Finalize panel

    [v] is [Number(e.target.value)]. *)

Definition changeLengthValue (v : JS.number) (st : EditorState) : EditorState :=
  setSettings (fun s =>
    {| show := show s; lengthValue := v; lengthUnit := lengthUnit s;
       barHeight := barHeight s; fontSize := fontSize s;
       fontColor := fontColor s; barColor := barColor s;
       position := position s; overlayPadding := overlayPadding s |}) st.

Definition changeLengthUnit (u : JS.jsstring) (st : EditorState)
  : EditorState :=
  setSettings (fun s =>
    {| show := show s; lengthValue := lengthValue s; lengthUnit := u;
       barHeight := barHeight s; fontSize := fontSize s;
       fontColor := fontColor s; barColor := barColor s;
       position := position s; overlayPadding := overlayPadding s |}) st.

Definition changePosition (p : Position) (st : EditorState) : EditorState :=
  setSettings (fun s =>
    {| show := show s; lengthValue := lengthValue s;
       lengthUnit := lengthUnit s; barHeight := barHeight s;
       fontSize := fontSize s; fontColor := fontColor s;
       barColor := barColor s; position := p;
       overlayPadding := overlayPadding s |}) st.

Definition changeFontSize (v : JS.number) (st : EditorState) : EditorState :=
  setSettings (fun s =>
    {| show := show s; lengthValue := lengthValue s;
       lengthUnit := lengthUnit s; barHeight := barHeight s; fontSize := v;
       fontColor := fontColor s; barColor := barColor s;
       position := position s; overlayPadding := overlayPadding s |}) st.

Definition changeBarHeight (v : JS.number) (st : EditorState) : EditorState :=
  setSettings (fun s =>
    {| show := show s; lengthValue := lengthValue s;
       lengthUnit := lengthUnit s; barHeight := v; fontSize := fontSize s;
       fontColor := fontColor s; barColor := barColor s;
       position := position s; overlayPadding := overlayPadding s |}) st.

Definition changeFontColor (c : JS.jsstring) (st : EditorState)
  : EditorState :=
  setSettings (fun s =>
    {| show := show s; lengthValue := lengthValue s;
       lengthUnit := lengthUnit s; barHeight := barHeight s;
       fontSize := fontSize s; fontColor := c; barColor := barColor s;
       position := position s; overlayPadding := overlayPadding s |}) st.

Definition changeBarColor (c : JS.jsstring) (st : EditorState)
  : EditorState :=
  setSettings (fun s =>
    {| show := show s; lengthValue := lengthValue s;
       lengthUnit := lengthUnit s; barHeight := barHeight s;
       fontSize := fontSize s; fontColor := fontColor s; barColor := c;
       position := position s; overlayPadding := overlayPadding s |}) st.

(** ** [ImageEditor]: the events of a session

    What can happen to a mounted editor: the image finishes loading, the
    pointer acts on the canvas, and the controls of the sidebar are used.
    The controls of step 1 are rendered in [CALIBRATE] mode only and those
    of step 2 in [EDIT] mode only; the two tabs are always there. *)

Inductive Event : Type :=
  | ImageLoaded (suggestedCropY : JS.number)
      (initialScaleText : option JS.jsstring) (img : HTMLImageElement)
  | CanvasClick (rect : DOMRect) (e : MouseEvent)
  | CanvasMouseMove (rect : DOMRect) (e : MouseEvent)
  | CanvasMouseLeave
  | TabCalibrate
  | TabFinalize
  | TogglePercent (b : bool)
  | InsetInput (type : Inset) (value : JS.jsstring)
  | RealLengthInput (v : JS.number)
  | UnitInput (u : JS.jsstring)
  | ResetPointsClick
  | LengthInput (v : JS.number)
  | UnitDisplayInput (u : JS.jsstring)
  | PositionSelect (p : Position)
  | FontSizeInput (v : JS.number)
  | BarHeightInput (v : JS.number)
  | FontColorInput (c : JS.jsstring)
  | BarColorInput (c : JS.jsstring)
  | ExportClick.

Definition handle (ev : Event) (st : EditorState) : EditorState :=
  match ev with
  | ImageLoaded s t img => onload s t img st
  | CanvasClick rect e => handleCanvasClick rect e st
  | CanvasMouseMove rect e => handleMouseMove rect e st
  | CanvasMouseLeave => handleMouseLeave st
  | TabCalibrate => setMode CALIBRATE st
  | TabFinalize => setMode EDIT st
  | ExportClick => st
  | _ =>
      match mode st, ev with
      | CALIBRATE, TogglePercent b => setUsePercent b st
      | CALIBRATE, InsetInput type value => updateCropInset type value st
      | CALIBRATE, RealLengthInput v => changeKnownDistance v st
      | CALIBRATE, UnitInput u => changeUnit u st
      | CALIBRATE, ResetPointsClick => resetPoints st
      | EDIT, LengthInput v => changeLengthValue v st
      | EDIT, UnitDisplayInput u => changeLengthUnit u st
      | EDIT, PositionSelect p => changePosition p st
      | EDIT, FontSizeInput v => changeFontSize v st
      | EDIT, BarHeightInput v => changeBarHeight v st
      | EDIT, FontColorInput c => changeFontColor c st
      | EDIT, BarColorInput c => changeBarColor c st
      | _, _ => st
      end
  end.

Definition run (evs : list Event) (st : EditorState) : EditorState :=
  fold_left (fun s ev => handle ev s) evs st.

(** The states of a session: those the events lead to from the initial
    values. *)
Definition reachable (st : EditorState) : Prop :=
  exists evs, st = run evs initialState.

(** ** [geminiService.ts]: the header of a data URL

    [base64Image.replace(/^data:image\/\w+;base64,/, "")]. *)

Definition is_word (c : N) : bool :=
  (((48 <=? c) && (c <=? 57)) || ((65 <=? c) && (c <=? 90))
   || ((97 <=? c) && (c <=? 122)) || (c =? 95))%N.

Fixpoint drop_word (s : JS.jsstring) : JS.jsstring :=
  match s with
  | c :: r => if is_word c then drop_word r else s
  | [] => []
  end.

Definition stripDataUrlHeader (base64Image : JS.jsstring) : JS.jsstring :=
  if JS.starts_with (JS.str "data:image/") base64Image then
    match skipn 11 base64Image with
    | c :: r =>
        if is_word c && JS.starts_with (JS.str ";base64,") (drop_word r)
        then skipn 8 (drop_word r)
        else base64Image
    | [] => base64Image
    end
  else base64Image.

(** Only word characters in [s]. *)
Definition all_word (s : JS.jsstring) : bool := forallb is_word s.

(** ** Reading a list of canvas calls *)

(** The rectangles filled, in order. *)
Fixpoint fill_rects (cmds : list CanvasCmd)
  : list (JS.number * JS.number * JS.number * JS.number) :=
  match cmds with
  | FillRect rx ry rw rh :: r => (rx, ry, rw, rh) :: fill_rects r
  | _ :: r => fill_rects r
  | [] => []
  end.

(** Where the first text is drawn. *)
Fixpoint label_pos (cmds : list CanvasCmd) : option (JS.number * JS.number) :=
  match cmds with
  | FillText _ tx ty :: _ => Some (tx, ty)
  | _ :: r => label_pos r
  | [] => None
  end.

(** The calls that only the preview makes: the strokes of the crop border
    and of the calibration markers, the unclipped image and the resizing of
    the shown canvas aside. *)
Definition is_overlay (c : CanvasCmd) : bool :=
  match c with
  | StrokeStyle _ | LineWidth _ | SetLineDash _ | StrokeRect _ _ _ _
  | BeginPath | Arc _ _ _ _ _ | Fill | MoveTo _ _ | LineTo _ _ | Stroke
  | DrawImage _ _ => true
  | _ => false
  end.

(** ** Pixels and rectangles on integers *)

Definition ZRect : Type := (Z * Z * Z * Z)%type.

Definition rect_of (r : ZRect) : JS.number * JS.number * JS.number * JS.number :=
  let '(rx, ry, rw, rh) := r in (JS.ofZ rx, JS.ofZ ry, JS.ofZ rw, JS.ofZ rh).

(** The pixel of column [i] and row [j] lies in the rectangle. *)
Definition covers (r : ZRect) (i j : Z) : bool :=
  let '(rx, ry, rw, rh) := r in
  (rx <=? i) && (i <? rx + rw) && (ry <=? j) && (j <? ry + rh).

(** The four bands that [draw] dims around the crop, on an image of [W] by
    [H]: above, below, left and right. *)
Definition mask_rects (W H : Z) (c : ZCrop) : list ZRect :=
  [ (0, 0, W, zy c);
    (0, zy c + zh c, W, H - (zy c + zh c));
    (0, zy c, zx c, zh c);
    (zx c + zw c, zy c, W - (zx c + zw c), zh c) ].

(** The number of rectangles of [rs] that cover the pixel. *)
Definition cover_count (rs : list ZRect) (i j : Z) : nat :=
  List.length (filter (fun r => covers r i j) rs).

(** The minimal size and the origin of a crop, without the far edges. *)
Definition zcrop_min (c : ZCrop) : Prop :=
  10 <= zw c /\ 10 <= zh c /\ 0 <= zx c /\ 0 <= zy c.

(** The inset that an edit to [value] leaves, on integer pixels. *)
Definition spec_inset_after (type : Inset) (imageWidth imageHeight value : Z)
  (c : ZCrop) : Z :=
  let c' := spec_inset_edit type imageWidth imageHeight value c in
  match type with
  | top_inset => zy c'
  | bottom_inset => imageHeight - (zy c' + zh c')
  | left_inset => zx c'
  | right_inset => imageWidth - (zx c' + zw c')
  end.

(** [max] as [insetValue] passes it to [getDisplayValue]. *)
Definition dimension_or_1 (type : Inset) (st : EditorState) : JS.number :=
  match type with
  | top_inset | bottom_inset => height_or_1 st
  | left_inset | right_inset => width_or_1 st
  end.

(** A text that [parseFloat] cannot start to read: nothing but white space,
    or after it a character that is no digit, sign, dot or [I]. *)
Definition not_numeric (s : JS.jsstring) : bool :=
  match JS.trimStart s with
  | [] => true
  | c :: _ =>
      negb (JS.is_digit c || (c =? 43) || (c =? 45) || (c =? 46) || (c =? 73))%N
  end.

(** The minimal size and the origin of a crop, as the editor holds it. *)
Definition crop_min (c : CropRect) : bool :=
  SFleb (JS.ofZ 10) (width c) && SFleb (JS.ofZ 10) (height c)
  && SFleb (JS.ofZ 0) (x c) && SFleb (JS.ofZ 0) (y c).

(** A length or coordinate that a canvas can have, and an integer that fits
    the same range in absolute value. *)
Definition pixel (z : Z) : Prop := 0 <= z <= 2147483647.

Definition typed (v : Z) : Prop := Z.abs v <= 2147483647.

(** The value of an edit is within what the edit accepts as it is. *)
Definition unclamped (type : Inset) (imageWidth imageHeight value : Z)
  (c : ZCrop) : Prop :=
  match type with
  | top_inset => 0 <= value <= zy c + zh c - 10
  | bottom_inset => value <= imageHeight - zy c - 10
  | left_inset => 0 <= value <= zx c + zw c - 10
  | right_inset => value <= imageWidth - zx c - 10
  end.

(** ** Exact values and decimal texts *)

(** The exact value of a number, 0 for what is not finite. *)
Definition value (x : JS.number) : Q :=
  match x with
  | S754_finite s m e => inject_Z (cond_Zopp s (Z.pos m)) * 2 ^ e
  | _ => 0
  end.

(** A finite number that is not negative, with an exponent of at most
    [E]. *)
Definition nonneg (E : Z) (x : JS.number) : Prop :=
  x = S754_zero false \/ exists m e, x = S754_finite false m e /\ e <= E.

(** A finite number from 0 to 100. *)
Definition percentage (x : JS.number) : Prop :=
  (exists E, nonneg E x) /\ (value x <= 100)%Q.

(** The text of [t] tenths, with one decimal. *)
Definition tenths (t : Z) : JS.jsstring :=
  JS.digits_of (t / 10) ++ JS.str "." ++ JS.digits_of (t mod 10).

(** [t] tenths are within [eps] of the number [x]. *)
Definition within (eps : Q) (t : Z) (x : JS.number) : Prop :=
  (Qabs ((t # 10) - value x) <= eps)%Q.

(** The value of a decimal digit and of a list of digits, and the digit of
    a value below 10. *)
Definition digit_value (d : DecimalFacts.digits) : Z :=
  match d with
  | DecimalFacts.d0 => 0 | DecimalFacts.d1 => 1 | DecimalFacts.d2 => 2
  | DecimalFacts.d3 => 3 | DecimalFacts.d4 => 4 | DecimalFacts.d5 => 5
  | DecimalFacts.d6 => 6 | DecimalFacts.d7 => 7 | DecimalFacts.d8 => 8
  | DecimalFacts.d9 => 9
  end.

Definition numeral_value (l : list DecimalFacts.digits) : Z :=
  fold_left (fun a d => 10 * a + digit_value d) l 0.

Definition digit_of (r : Z) : DecimalFacts.digits :=
  match r with
  | 0 => DecimalFacts.d0 | 1 => DecimalFacts.d1 | 2 => DecimalFacts.d2
  | 3 => DecimalFacts.d3 | 4 => DecimalFacts.d4 | 5 => DecimalFacts.d5
  | 6 => DecimalFacts.d6 | 7 => DecimalFacts.d7 | 8 => DecimalFacts.d8
  | _ => DecimalFacts.d9
  end.

(** The number of digits of a decimal numeral. *)
Definition numeral_length (z : Z) : Z :=
  Z.of_nat (List.length (JS.digits_of z)).

(** * Properties *)

(** ** Numbers: comparisons against zero *)

Lemma ofZ_0 : JS.ofZ 0 = S754_zero false.
Proof. reflexivity. Qed.


Lemma gt_0_not_strict_eq (v : JS.number) :
  JS.gt v (JS.ofZ 0) = true -> JS.strict_eq v (JS.ofZ 0) = false.
Proof.
  rewrite ofZ_0.
  destruct v as [s | s | | s m e]; try destruct s; cbn; congruence.
Qed.

(** Adding a positive number to zero gives that number. *)
Lemma add_0_positive (v : JS.number) :
  JS.gt v (JS.ofZ 0) = true -> JS.add (JS.ofZ 0) v = v.
Proof.
  rewrite ofZ_0.
  destruct v as [s | s | | s m e]; try destruct s; cbn; congruence.
Qed.

(** The result of rounding carries the sign it was given. *)
Lemma binary_round_aux_sign (s : bool) (m e : Z) (l : location) :
  let r := binary_round_aux JS.prec JS.emax s m e l in
  r = S754_zero s \/ r = S754_infinity s \/ r = S754_nan
  \/ exists m' e', r = S754_finite s m' e'.
Proof.
  unfold binary_round_aux.
  destruct (shr_fexp JS.prec JS.emax m e l) as [mrs' e'].
  destruct (shr_fexp JS.prec JS.emax _ e' loc_Exact) as [mrs'' e''].
  destruct (shr_m mrs'') as [ | p | p ]; auto.
  destruct (e'' <=? JS.emax - JS.prec); eauto 6.
Qed.

(** A square root is never below zero. *)
Lemma sqrt_not_negative (v : JS.number) :
  JS.lt (JS.Math_sqrt v) (JS.ofZ 0) = false.
Proof.
  rewrite ofZ_0. unfold JS.Math_sqrt, JS.lt.
  destruct v as [s | [ | ] | | [ | ] m e]; try reflexivity.
  cbn [SFsqrt].
  destruct (SFsqrt_core_binary JS.prec JS.emax (Z.pos m) e) as [[mz ez] lz].
  destruct (binary_round_aux_sign false mz ez lz)
    as [H | [H | [H | (m' & e' & H)]]]; cbv zeta in H; rewrite H; reflexivity.
Qed.

Lemma distance_not_negative (a b : Point) :
  JS.lt (distance a b) (JS.ofZ 0) = false.
Proof. apply sqrt_not_negative. Qed.

(** A positive ratio of a distance is the ratio of a positive distance. *)
Lemma ratio_positive_pixels_positive (p k : JS.number) :
  JS.gt (JS.div p k) (JS.ofZ 0) = true ->
  JS.lt p (JS.ofZ 0) = false ->
  JS.gt p (JS.ofZ 0) = true.
Proof.
  rewrite ofZ_0. unfold JS.gt, JS.lt, JS.div.
  destruct p as [s | s | | s m e]; try destruct s; cbn; try congruence;
    destruct k as [s' | s' | | s' m' e']; try destruct s'; cbn; congruence.
Qed.

(** ** Integers below 2^53 in binary64 *)

Lemma digits2_pos_size (p : positive) : digits2_pos p = Pos.size p.
Proof. induction p; cbn; congruence. Qed.

Lemma digits2_log2 (p : positive) :
  Z.pos (digits2_pos p) = Z.log2 (Z.pos p) + 1.
Proof.
  rewrite digits2_pos_size. destruct p; cbn [Z.log2 Pos.size]; lia.
Qed.

Lemma iter_xO (m d : positive) : Z.pos (Pos.iter xO m d) = Z.pos m * 2 ^ Z.pos d.
Proof.
  change (Pos.iter xO m d) with (shift_pos d m).
  rewrite shift_pos_correct, Z.pow_pos_fold. lia.
Qed.

Lemma shr_1_double (m : Z) :
  0 <= m ->
  shr_1 (Build_shr_record (m * 2) false false) = Build_shr_record m false false.
Proof.
  intros H. destruct m as [ | q | q]; [reflexivity | | lia].
  rewrite Z.mul_comm. reflexivity.
Qed.

Lemma pow2_xI (n : positive) :
  2 ^ Z.pos n~1 = 2 ^ Z.pos n * 2 ^ Z.pos n * 2.
Proof.
  assert (E : Z.pos n~1 = Z.pos n + Z.pos n + 1) by lia.
  rewrite E, !Z.pow_add_r by lia. lia.
Qed.

Lemma pow2_xO (n : positive) : 2 ^ Z.pos n~0 = 2 ^ Z.pos n * 2 ^ Z.pos n.
Proof.
  assert (E : Z.pos n~0 = Z.pos n + Z.pos n) by lia.
  now rewrite E, Z.pow_add_r by lia.
Qed.

Lemma shr_exact (n : positive) : forall m : Z,
  0 <= m ->
  iter_pos shr_1 n (Build_shr_record (m * 2 ^ Z.pos n) false false)
  = Build_shr_record m false false.
Proof.
  induction n as [n IH | n IH | ]; intros m Hm; cbn [iter_pos].
  - assert (H2 : 0 <= 2 ^ Z.pos n) by (apply Z.pow_nonneg; lia).
    rewrite pow2_xI.
    replace (m * (2 ^ Z.pos n * 2 ^ Z.pos n * 2))
      with (m * 2 ^ Z.pos n * 2 ^ Z.pos n * 2) by lia.
    rewrite shr_1_double, IH, IH; auto; nia.
  - assert (H2 : 0 <= 2 ^ Z.pos n) by (apply Z.pow_nonneg; lia).
    rewrite pow2_xO.
    replace (m * (2 ^ Z.pos n * 2 ^ Z.pos n))
      with (m * 2 ^ Z.pos n * 2 ^ Z.pos n) by lia.
    rewrite IH, IH; auto; nia.
  - rewrite Z.pow_1_r. now apply shr_1_double.
Qed.

Lemma digits_shift (m p : positive) (k : Z) :
  0 <= k -> Z.pos m = Z.pos p * 2 ^ k ->
  Z.pos (digits2_pos m) = Z.pos (digits2_pos p) + k.
Proof.
  intros Hk H. rewrite !digits2_log2, H, Z.log2_mul_pow2 by lia. lia.
Qed.

(** Rounding a mantissa of 53 digits followed by [j] zero bits. *)
Lemma round_aux_exact (s : bool) (M mx : positive) (e j : Z) :
  Z.pos (digits2_pos M) = 53 -> -1074 <= e <= 971 -> 0 <= j ->
  Z.pos mx = Z.pos M * 2 ^ j ->
  binary_round_aux JS.prec JS.emax s (Z.pos mx) (e - j) loc_Exact
  = S754_finite s M e.
Proof.
  intros HM He Hj Hmx.
  pose proof (digits_shift mx M j Hj Hmx) as Hd.
  unfold binary_round_aux, shr_fexp, fexp, emin, JS.prec, JS.emax.
  cbn [Zdigits2 shr_record_of_loc]. rewrite Hd, HM.
  replace (Z.max (53 + j + (e - j) - 53) (3 - 1024 - 53) - (e - j)) with j by lia.
  assert (Hshr : shr (Build_shr_record (Z.pos mx) false false) (e - j) j
                 = (Build_shr_record (Z.pos M) false false, e)).
  { destruct j as [ | q | q]; [ | | lia].
    - cbn [shr]. rewrite Z.pow_0_r, Z.mul_1_r in Hmx. rewrite Hmx.
      f_equal. lia.
    - cbn [shr]. rewrite Hmx, shr_exact by lia. f_equal. lia. }
  rewrite Hshr. cbn [shr_m loc_of_shr_record round_nearest_even Zdigits2].
  rewrite HM.
  replace (Z.max (53 + e - 53) (3 - 1024 - 53) - e) with 0 by lia.
  cbn [shr shr_m].
  replace (e <=? 1024 - 53) with true by (symmetry; apply Z.leb_le; lia).
  reflexivity.
Qed.

Lemma digits_le_53 (p : positive) :
  Z.pos p < 2 ^ 53 -> 1 <= Z.pos (digits2_pos p) <= 53.
Proof.
  intros H. rewrite digits2_log2.
  pose proof (Z.log2_nonneg (Z.pos p)).
  assert (Z.log2 (Z.pos p) < 53) by (apply Z.log2_lt_pow2; lia). lia.
Qed.

Lemma mant_spec (p : positive) :
  Z.pos p < 2 ^ 53 ->
  Z.pos (mant p) = Z.pos p * 2 ^ (53 - Z.pos (digits2_pos p)).
Proof.
  intros H. pose proof (digits_le_53 p H). unfold mant.
  rewrite Z2Pos.id; [reflexivity | ].
  apply Z.mul_pos_pos; [lia | apply Z.pow_pos_nonneg; lia].
Qed.

Lemma mant_digits (p : positive) :
  Z.pos p < 2 ^ 53 -> Z.pos (digits2_pos (mant p)) = 53.
Proof.
  intros H. pose proof (digits_le_53 p H).
  rewrite (digits_shift (mant p) p (53 - Z.pos (digits2_pos p)));
    [lia | lia | now apply mant_spec].
Qed.

Lemma round_exact (s : bool) (m p : positive) (k : Z) :
  0 <= k -> Z.pos m = Z.pos p * 2 ^ k -> Z.pos p < 2 ^ 53 ->
  binary_round JS.prec JS.emax s m (- k) = canon s p.
Proof.
  intros Hk Hm Hp.
  pose proof (digits_le_53 p Hp) as Hd.
  pose proof (digits_shift m p k Hk Hm) as Hdm.
  pose proof (mant_spec p Hp) as HM.
  pose proof (mant_digits p Hp) as HMd.
  set (d := Z.pos (digits2_pos p)) in *.
  unfold binary_round, shl_align, fexp, emin, JS.prec, JS.emax.
  rewrite Hdm.
  replace (Z.max (d + k + - k - 53) (3 - 1024 - 53) - - k) with (d - 53 + k)
    by lia.
  replace (Z.max (d + k + - k - 53) (3 - 1024 - 53)) with (d - 53) by lia.
  unfold canon. fold d.
  destruct (d - 53 + k) as [ | q | q] eqn:E.
  - replace (- k) with (d - 53 - 0) by lia.
    apply round_aux_exact; try lia.
    rewrite HM, Hm. replace (53 - d) with k by lia. lia.
  - replace (- k) with (d - 53 - Z.pos q) by lia.
    apply round_aux_exact; try lia.
    rewrite HM, Hm, <- Z.mul_assoc, <- Z.pow_add_r by lia.
    do 2 f_equal. lia.
  - replace (d - 53) with (d - 53 - 0) at 1 by lia.
    apply round_aux_exact; try lia.
    rewrite iter_xO, HM, Hm, <- Z.mul_assoc, <- Z.pow_add_r by lia.
    rewrite Z.pow_0_r, Z.mul_1_r. do 2 f_equal. lia.
Qed.

Lemma ofZ_pos (p : positive) :
  Z.pos p < 2 ^ 53 -> JS.ofZ (Z.pos p) = canon false p.
Proof.
  intros H. unfold JS.ofZ, binary_normalize.
  change 0 with (- 0). apply round_exact; lia.
Qed.

Lemma ofZ_neg (p : positive) :
  Z.pos p < 2 ^ 53 -> JS.ofZ (Z.neg p) = canon true p.
Proof.
  intros H. unfold JS.ofZ, binary_normalize.
  change 0 with (- 0). apply round_exact; lia.
Qed.

(** Normalising an integer below 2^53 followed by [k] zero bits. *)
Lemma normalize_exact (z k : Z) :
  0 <= k -> Z.abs z < 2 ^ 53 ->
  binary_normalize JS.prec JS.emax (z * 2 ^ k) (- k) false = JS.ofZ z.
Proof.
  intros Hk Hz.
  assert (H2 : 0 < 2 ^ k) by (apply Z.pow_pos_nonneg; lia).
  destruct z as [ | p | p].
  - reflexivity.
  - rewrite ofZ_pos by lia.
    destruct (Z.pos p * 2 ^ k) as [ | m | m] eqn:E; try lia.
    cbn [binary_normalize]. apply round_exact; lia.
  - rewrite ofZ_neg by lia.
    destruct (Z.neg p * 2 ^ k) as [ | m | m] eqn:E; try lia.
    cbn [binary_normalize]. apply round_exact; lia.
Qed.

Lemma shl_align_fst (M : positive) (e e' : Z) :
  e' <= e -> Z.pos (fst (shl_align M e e')) = Z.pos M * 2 ^ (e - e').
Proof.
  intros H. unfold shl_align.
  destruct (e' - e) as [ | q | q] eqn:E; cbn [fst]; try lia.
  - replace (e - e') with 0 by lia. lia.
  - rewrite iter_xO. do 2 f_equal. lia.
Qed.

(** The integer that a float of [canon] stands for, scaled. *)
Lemma canon_scaled (s : bool) (p : positive) (ez : Z) :
  Z.pos p < 2 ^ 53 -> ez <= Z.pos (digits2_pos p) - 53 ->
  cond_Zopp s (Z.pos (fst (shl_align (mant p) (Z.pos (digits2_pos p) - 53) ez)))
  = cond_Zopp s (Z.pos p) * 2 ^ (- ez).
Proof.
  intros Hp He. pose proof (digits_le_53 p Hp) as Hd.
  rewrite shl_align_fst, mant_spec, <- Z.mul_assoc, <- Z.pow_add_r by lia.
  replace (53 - Z.pos (digits2_pos p) + (Z.pos (digits2_pos p) - 53 - ez))
    with (- ez) by lia.
  destruct s; cbn [cond_Zopp]; lia.
Qed.

Lemma ofZ_canon (z : Z) :
  z <> 0 -> Z.abs z < 2 ^ 53 ->
  JS.ofZ z = canon (z <? 0) (Z.to_pos (Z.abs z))
  /\ cond_Zopp (z <? 0) (Z.pos (Z.to_pos (Z.abs z))) = z
  /\ Z.pos (Z.to_pos (Z.abs z)) < 2 ^ 53.
Proof.
  intros Hz Hb. destruct z as [ | p | p]; [congruence | | ]; cbn.
  - split; [now apply ofZ_pos | split; [reflexivity | exact Hb]].
  - split; [now apply ofZ_neg | split; [reflexivity | exact Hb]].
Qed.

Lemma add_canon (sa sb : bool) (pa pb : positive) :
  Z.pos pa < 2 ^ 53 -> Z.pos pb < 2 ^ 53 ->
  Z.abs (cond_Zopp sa (Z.pos pa) + cond_Zopp sb (Z.pos pb)) < 2 ^ 53 ->
  JS.add (canon sa pa) (canon sb pb)
  = JS.ofZ (cond_Zopp sa (Z.pos pa) + cond_Zopp sb (Z.pos pb)).
Proof.
  intros Ha Hb Hab.
  pose proof (digits_le_53 pa Ha). pose proof (digits_le_53 pb Hb).
  unfold JS.add, canon. cbn [SFadd].
  set (ez := Z.min _ _).
  rewrite !canon_scaled by (subst ez; lia).
  rewrite <- Z.mul_add_distr_r.
  pose proof (normalize_exact
                (cond_Zopp sa (Z.pos pa) + cond_Zopp sb (Z.pos pb)) (- ez))
    as N.
  rewrite Z.opp_involutive in N. apply N; subst ez; lia.
Qed.

Lemma sub_canon (sa sb : bool) (pa pb : positive) :
  Z.pos pa < 2 ^ 53 -> Z.pos pb < 2 ^ 53 ->
  Z.abs (cond_Zopp sa (Z.pos pa) - cond_Zopp sb (Z.pos pb)) < 2 ^ 53 ->
  JS.sub (canon sa pa) (canon sb pb)
  = JS.ofZ (cond_Zopp sa (Z.pos pa) - cond_Zopp sb (Z.pos pb)).
Proof.
  intros Ha Hb Hab.
  pose proof (digits_le_53 pa Ha). pose proof (digits_le_53 pb Hb).
  unfold JS.sub, canon. cbn [SFsub].
  set (ez := Z.min _ _).
  rewrite !canon_scaled by (subst ez; lia).
  rewrite <- Z.mul_sub_distr_r.
  pose proof (normalize_exact
                (cond_Zopp sa (Z.pos pa) - cond_Zopp sb (Z.pos pb)) (- ez))
    as N.
  rewrite Z.opp_involutive in N. apply N; subst ez; lia.
Qed.

(** Sums and differences of integers below 2^53 are exact. *)
Lemma add_exact (a b : Z) :
  Z.abs a < 2 ^ 53 -> Z.abs b < 2 ^ 53 -> Z.abs (a + b) < 2 ^ 53 ->
  JS.add (JS.ofZ a) (JS.ofZ b) = JS.ofZ (a + b).
Proof.
  intros Ha Hb Hab.
  destruct (Z.eq_dec a 0) as [-> | Hna].
  { destruct b as [ | p | p]; [reflexivity | | ].
    - now rewrite Z.add_0_l, ofZ_pos.
    - now rewrite Z.add_0_l, ofZ_neg. }
  destruct (Z.eq_dec b 0) as [-> | Hnb].
  { rewrite Z.add_0_r.
    destruct a as [ | p | p]; [reflexivity | | ].
    - now rewrite ofZ_pos.
    - now rewrite ofZ_neg. }
  destruct (ofZ_canon a Hna Ha) as (-> & Ea & Ha').
  destruct (ofZ_canon b Hnb Hb) as (-> & Eb & Hb').
  rewrite add_canon; rewrite ?Ea, ?Eb; trivial.
Qed.

Lemma sub_exact (a b : Z) :
  Z.abs a < 2 ^ 53 -> Z.abs b < 2 ^ 53 -> Z.abs (a - b) < 2 ^ 53 ->
  JS.sub (JS.ofZ a) (JS.ofZ b) = JS.ofZ (a - b).
Proof.
  intros Ha Hb Hab.
  destruct (Z.eq_dec b 0) as [-> | Hnb].
  { rewrite Z.sub_0_r.
    destruct a as [ | p | p]; [reflexivity | | ].
    - now rewrite ofZ_pos.
    - now rewrite ofZ_neg. }
  destruct (Z.eq_dec a 0) as [-> | Hna].
  { destruct b as [ | p | p]; [congruence | | ].
    - change (0 - Z.pos p) with (Z.neg p).
      now rewrite ofZ_pos, ofZ_neg.
    - change (0 - Z.neg p) with (Z.pos p).
      now rewrite ofZ_pos, ofZ_neg. }
  destruct (ofZ_canon a Hna Ha) as (-> & Ea & Ha').
  destruct (ofZ_canon b Hnb Hb) as (-> & Eb & Hb').
  rewrite sub_canon; rewrite ?Ea, ?Eb; trivial.
Qed.

Lemma digits_bounds (p : positive) :
  2 ^ (Z.pos (digits2_pos p) - 1) <= Z.pos p < 2 ^ Z.pos (digits2_pos p).
Proof.
  rewrite digits2_log2.
  replace (Z.log2 (Z.pos p) + 1 - 1) with (Z.log2 (Z.pos p)) by lia.
  apply Z.log2_spec. lia.
Qed.

Lemma canon_compare_magnitude (pa pb : positive) :
  Z.pos pa < 2 ^ 53 -> Z.pos pb < 2 ^ 53 ->
  match Z.pos (digits2_pos pa) - 53 ?= Z.pos (digits2_pos pb) - 53 with
  | Lt => Lt
  | Gt => Gt
  | Eq => Pos.compare_cont Eq (mant pa) (mant pb)
  end = (Z.pos pa ?= Z.pos pb).
Proof.
  intros Ha Hb.
  pose proof (digits_le_53 pa Ha) as Hda. pose proof (digits_le_53 pb Hb) as Hdb.
  pose proof (digits_bounds pa) as Ba. pose proof (digits_bounds pb) as Bb.
  destruct (Z.compare_spec (Z.pos (digits2_pos pa) - 53)
              (Z.pos (digits2_pos pb) - 53)) as [E | L | G].
  - change (Pos.compare_cont Eq (mant pa) (mant pb))
      with (Z.pos (mant pa) ?= Z.pos (mant pb)).
    rewrite !mant_spec by trivial.
    replace (Z.pos (digits2_pos pb)) with (Z.pos (digits2_pos pa)) by lia.
    symmetry. apply Zmult_compare_compat_r, Z.lt_gt, Z.pow_pos_nonneg; lia.
  - symmetry. apply Z.compare_lt_iff.
    assert (2 ^ Z.pos (digits2_pos pa) <= 2 ^ (Z.pos (digits2_pos pb) - 1))
      by (apply Z.pow_le_mono_r; lia).
    lia.
  - symmetry. apply Z.compare_gt_iff.
    assert (2 ^ Z.pos (digits2_pos pb) <= 2 ^ (Z.pos (digits2_pos pa) - 1))
      by (apply Z.pow_le_mono_r; lia).
    lia.
Qed.

(** Comparison of integers below 2^53 is comparison of their floats. *)
Lemma compare_exact (a b : Z) :
  Z.abs a < 2 ^ 53 -> Z.abs b < 2 ^ 53 ->
  SFcompare (JS.ofZ a) (JS.ofZ b) = Some (a ?= b).
Proof.
  intros Ha Hb.
  destruct a as [ | pa | pa], b as [ | pb | pb];
    rewrite ?ofZ_pos, ?ofZ_neg by trivial; try reflexivity.
  - cbn [canon SFcompare]. f_equal. now apply canon_compare_magnitude.
  - cbn [canon SFcompare]. f_equal.
    change (Z.neg pa ?= Z.neg pb) with (- Z.pos pa ?= - Z.pos pb).
    rewrite Z.compare_opp, <- (canon_compare_magnitude pb pa) by trivial.
    rewrite (Z.compare_antisym (Z.pos (digits2_pos pb) - 53)).
    destruct (Z.pos (digits2_pos pb) - 53 ?= Z.pos (digits2_pos pa) - 53);
      cbn [CompOpp]; try reflexivity.
    change (Pos.compare_cont Eq (mant pa) (mant pb))
      with ((mant pa) ?= (mant pb))%positive.
    now rewrite <- Pos.compare_antisym.
Qed.

Lemma Math_max_exact (a b : Z) :
  Z.abs a < 2 ^ 53 -> Z.abs b < 2 ^ 53 ->
  JS.Math_max (JS.ofZ a) (JS.ofZ b) = JS.ofZ (Z.max a b).
Proof.
  intros Ha Hb. unfold JS.Math_max, Z.max.
  rewrite compare_exact by trivial.
  destruct (Z.compare_spec a b) as [-> | L | G]; try reflexivity.
  now destruct (JS.ofZ b) as [[ | ] | | | ].
Qed.

Lemma Math_min_exact (a b : Z) :
  Z.abs a < 2 ^ 53 -> Z.abs b < 2 ^ 53 ->
  JS.Math_min (JS.ofZ a) (JS.ofZ b) = JS.ofZ (Z.min a b).
Proof.
  intros Ha Hb. unfold JS.Math_min, Z.min.
  rewrite compare_exact by trivial.
  destruct (Z.compare_spec a b) as [-> | L | G]; try reflexivity.
  now destruct (JS.ofZ b) as [[ | ] | | | ].
Qed.

Lemma leb_exact (a b : Z) :
  Z.abs a < 2 ^ 53 -> Z.abs b < 2 ^ 53 ->
  SFleb (JS.ofZ a) (JS.ofZ b) = (a <=? b).
Proof.
  intros Ha Hb. unfold SFleb, Z.leb. rewrite compare_exact by trivial.
  now destruct (a ?= b).
Qed.

Lemma half_odd (z : Z) : (2 * z + 1) / 2 = z.
Proof. symmetry. apply (Z.div_unique _ 2 z 1); lia. Qed.

(** An integer below 2^53 is its own rounding. *)
Lemma Math_round_exact (a : Z) :
  Z.abs a < 2 ^ 53 -> JS.Math_round (JS.ofZ a) = JS.ofZ a.
Proof.
  intros Ha. destruct (Z.eq_dec a 0) as [-> | Hna]; [reflexivity | ].
  destruct (ofZ_canon a Hna Ha) as (E & Ea & Hp).
  rewrite E. set (p := Z.to_pos (Z.abs a)) in *. set (s := a <? 0) in *.
  pose proof (digits_le_53 p Hp) as Hd.
  unfold canon, JS.Math_round.
  destruct (0 <=? Z.pos (digits2_pos p) - 53) eqn:L; [reflexivity | ].
  apply Z.leb_gt in L.
  assert (H2 : 0 < 2 ^ (53 - Z.pos (digits2_pos p)))
    by (apply Z.pow_pos_nonneg; lia).
  replace ((2 * cond_Zopp s (Z.pos (mant p))
            + 2 ^ (- (Z.pos (digits2_pos p) - 53)))
           / 2 ^ (1 - (Z.pos (digits2_pos p) - 53))) with a.
  - apply Z.eqb_neq in Hna. rewrite Hna. exact E.
  - replace (1 - (Z.pos (digits2_pos p) - 53))
      with (1 + (53 - Z.pos (digits2_pos p))) by lia.
    replace (- (Z.pos (digits2_pos p) - 53))
      with (53 - Z.pos (digits2_pos p)) by lia.
    rewrite Z.pow_add_r, Z.pow_1_r by lia.
    replace (2 * cond_Zopp s (Z.pos (mant p))
             + 2 ^ (53 - Z.pos (digits2_pos p)))
      with ((2 * a + 1) * 2 ^ (53 - Z.pos (digits2_pos p))).
    + rewrite Z.div_mul_cancel_r by lia. now rewrite half_odd.
    + rewrite <- Ea, mant_spec by trivial.
      destruct s; cbn [cond_Zopp]; lia.
Qed.

(** The digits of a square. *)
Lemma digits_square (p : positive) :
  2 * Z.pos (digits2_pos p) - 1 <= Z.pos (digits2_pos (p * p))
  <= 2 * Z.pos (digits2_pos p).
Proof.
  pose proof (digits_bounds p) as Bp. pose proof (digits_bounds (p * p)) as BP.
  rewrite Pos2Z.inj_mul in BP.
  set (d := Z.pos (digits2_pos p)) in *.
  set (D := Z.pos (digits2_pos (p * p))) in *.
  assert (Hd : 1 <= d) by (subst d; lia).
  assert (HD : 1 <= D) by (subst D; lia).
  assert (L : 2 ^ (2 * d - 2) <= Z.pos p * Z.pos p).
  { replace (2 * d - 2) with ((d - 1) + (d - 1)) by lia.
    rewrite Z.pow_add_r by lia.
    assert (0 < 2 ^ (d - 1)) by (apply Z.pow_pos_nonneg; lia). nia. }
  assert (U : Z.pos p * Z.pos p < 2 ^ (2 * d)).
  { replace (2 * d) with (d + d) by lia. rewrite Z.pow_add_r by lia. nia. }
  assert (2 ^ (2 * d - 2) < 2 ^ D) by lia.
  assert (2 ^ (D - 1) < 2 ^ (2 * d)) by lia.
  apply Z.pow_lt_mono_r_iff in H; try lia.
  apply Z.pow_lt_mono_r_iff in H0; lia.
Qed.

Lemma mant_square (p : positive) :
  Z.pos p * Z.pos p < 2 ^ 53 ->
  Z.pos (mant p) * Z.pos (mant p)
  = Z.pos (mant (p * p))
    * 2 ^ (53 - 2 * Z.pos (digits2_pos p) + Z.pos (digits2_pos (p * p))).
Proof.
  intros HP.
  assert (Hp : Z.pos p < 2 ^ 53) by nia.
  pose proof (digits_le_53 p Hp). pose proof (digits_le_53 (p * p) HP).
  pose proof (digits_square p).
  rewrite (mant_spec p Hp), (mant_spec (p * p)) by exact HP.
  rewrite Pos2Z.inj_mul, <- !Z.mul_assoc, <- Z.pow_add_r by lia.
  replace (53 - Z.pos (digits2_pos (p * p))
           + (53 - 2 * Z.pos (digits2_pos p) + Z.pos (digits2_pos (p * p))))
    with ((53 - Z.pos (digits2_pos p)) + (53 - Z.pos (digits2_pos p))) by lia.
  rewrite Z.pow_add_r by lia. lia.
Qed.

(** The square of an integer is exact when it is below 2^53. *)
Lemma pow2_exact (a : Z) :
  a * a < 2 ^ 53 -> JS.Math_pow2 (JS.ofZ a) = JS.ofZ (a * a).
Proof.
  intros Haa.
  destruct (Z.eq_dec a 0) as [-> | Hna]; [reflexivity | ].
  assert (Ha : Z.abs a < 2 ^ 53) by nia.
  destruct (ofZ_canon a Hna Ha) as (E & Ea & Hp).
  rewrite E. set (p := Z.to_pos (Z.abs a)) in *.
  assert (HP : Z.pos p * Z.pos p < 2 ^ 53)
    by (rewrite <- Ea in Haa; destruct (a <? 0); cbn [cond_Zopp] in Haa; lia).
  assert (EP : a * a = Z.pos (p * p))
    by (rewrite <- Ea; destruct (a <? 0); cbn [cond_Zopp]; lia).
  rewrite EP, ofZ_pos by (rewrite Pos2Z.inj_mul; exact HP).
  rewrite <- Pos2Z.inj_mul in HP.
  pose proof (digits_le_53 p Hp). pose proof (digits_le_53 (p * p) HP).
  pose proof (digits_square p).
  unfold JS.Math_pow2, JS.mul, canon. cbn [SFmul].
  rewrite xorb_nilpotent.
  replace (Z.pos (digits2_pos p) - 53 + (Z.pos (digits2_pos p) - 53))
    with (Z.pos (digits2_pos (p * p)) - 53
          - (53 - 2 * Z.pos (digits2_pos p) + Z.pos (digits2_pos (p * p))))
    by lia.
  apply round_aux_exact; try lia.
  - now apply mant_digits.
  - rewrite Pos2Z.inj_mul. apply mant_square. now rewrite <- Pos2Z.inj_mul.
Qed.

(** The square root of a square below 2^53 is exact. *)
Lemma sqrt_exact (k : Z) :
  0 <= k -> k * k < 2 ^ 53 -> JS.Math_sqrt (JS.ofZ (k * k)) = JS.ofZ k.
Proof.
  intros Hk Hkk.
  destruct (Z.eq_dec k 0) as [-> | Hnk]; [reflexivity | ].
  destruct k as [ | p | p]; try lia.
  assert (Hp : Z.pos p < 2 ^ 53) by nia.
  change (Z.pos p * Z.pos p) with (Z.pos (p * p)) in *.
  rewrite !ofZ_pos by trivial.
  pose proof (digits_le_53 p Hp) as Hd.
  pose proof (digits_le_53 (p * p) Hkk) as HD.
  pose proof (digits_square p) as HS.
  pose proof (mant_digits (p * p) Hkk) as HMD.
  pose proof (mant_digits p Hp) as HMd.
  assert (Hcore :
    SFsqrt_core_binary JS.prec JS.emax (Z.pos (mant (p * p)))
      (Z.pos (digits2_pos (p * p)) - 53)
    = (Z.pos (mant p), Z.pos (digits2_pos p) - 53, loc_Exact)).
  { unfold SFsqrt_core_binary, fexp, emin, JS.prec, JS.emax.
    cbn [Zdigits2]. rewrite HMD.
    set (d := Z.pos (digits2_pos p)) in *.
    set (D := Z.pos (digits2_pos (p * p))) in *.
    rewrite !Z.div2_div.
    replace (Z.min (Z.max ((53 + (D - 53) + 1) / 2 - 53) (3 - 1024 - 53))
               ((D - 53) / 2)) with (d - 53)
      by (pose proof (Z.div_mod (53 + (D - 53) + 1) 2);
          pose proof (Z.mod_pos_bound (53 + (D - 53) + 1) 2);
          pose proof (Z.div_mod (D - 53) 2);
          pose proof (Z.mod_pos_bound (D - 53) 2); lia).
    assert (Hm : Z.shiftl (Z.pos (mant (p * p))) (D - 53 - 2 * (d - 53))
                 = Z.pos (mant p) * Z.pos (mant p)).
    { rewrite Z.shiftl_mul_pow2 by lia.
      rewrite (mant_square p) by (rewrite <- Pos2Z.inj_mul; exact Hkk).
      fold D d. do 2 f_equal. lia. }
    destruct (D - 53 - 2 * (d - 53)) as [ | s | s] eqn:Es; try lia.
    rewrite Hm.
    pose proof (Z.sqrtrem_spec (Z.pos (mant p) * Z.pos (mant p))) as Hspec.
    pose proof (Z.sqrtrem_sqrt (Z.pos (mant p) * Z.pos (mant p))) as Hsq.
    rewrite Z.sqrt_square in Hsq by lia.
    destruct (Z.sqrtrem (Z.pos (mant p) * Z.pos (mant p))) as [q r].
    cbn [fst] in Hsq. subst q.
    assert (r = 0) by lia. subst r. reflexivity. }
  unfold JS.Math_sqrt, canon. cbn [SFsqrt]. rewrite Hcore.
  replace (Z.pos (digits2_pos p) - 53)
    with (Z.pos (digits2_pos p) - 53 - 0) at 1 by lia.
  apply round_aux_exact; try lia.
Qed.

(** Between points with integer coordinates whose squared differences add
    up to a square, the distance is the root of that square. *)
Lemma distance_pythagorean (ax ay bx by_ k : Z) :
  small ax -> small ay -> small bx -> small by_ -> 0 <= k ->
  (bx - ax) * (bx - ax) + (by_ - ay) * (by_ - ay) = k * k ->
  distance (at_point ax ay) (at_point bx by_) = JS.ofZ k.
Proof.
  unfold small. change (2 ^ 25) with 33554432.
  intros Hax Hay Hbx Hby Hk E.
  assert (Hx : (bx - ax) * (bx - ax) < 2 ^ 52)
    by (change (2 ^ 52) with 4503599627370496; nia).
  assert (Hy : (by_ - ay) * (by_ - ay) < 2 ^ 52)
    by (change (2 ^ 52) with 4503599627370496; nia).
  change (2 ^ 52) with 4503599627370496 in Hx, Hy.
  unfold distance, at_point. cbn [px py].
  rewrite !sub_exact, !pow2_exact, add_exact, E, sqrt_exact;
    trivial; change (2 ^ 53) with 9007199254740992; try nia; lia.
Qed.

(** ** Calibration *)

(** C9: the "Reset Points" handler clears both reference points and sets the
    pixel distance to 0; the known distance, the unit, the crop rectangle,
    the scale-bar settings and the rest of the state are unchanged. *)
Theorem resetPoints_frame (st : EditorState) :
  calStart (resetPoints st) = None
  /\ calEnd (resetPoints st) = None
  /\ pixels (calibration (resetPoints st)) = JS.ofZ 0
  /\ knownDistance (calibration (resetPoints st))
     = knownDistance (calibration st)
  /\ unit_ (calibration (resetPoints st)) = unit_ (calibration st)
  /\ crop (resetPoints st) = crop st
  /\ settings (resetPoints st) = settings st
  /\ imageObj (resetPoints st) = imageObj st
  /\ mode (resetPoints st) = mode st
  /\ usePercent (resetPoints st) = usePercent st
  /\ cursorPos (resetPoints st) = cursorPos st.
Proof. repeat split. Qed.

(** C2, amended: on a session without points, three clicks A, B, C in
    CALIBRATE mode end with start = C and end unset; the pixel distance is
    still the distance from A to B that the second click computed, and the
    known distance and the unit are unchanged. *)
Theorem click_sequence_keeps_distance
  (r1 r2 r3 : DOMRect) (e1 e2 e3 : MouseEvent) (st : EditorState)
  (Hmode : mode st = CALIBRATE)
  (Hstart : calStart st = None)
  (Hend : calEnd st = None) :
  let A := canvas_point r1 e1 st in
  let B := canvas_point r2 e2 st in
  let C := canvas_point r3 e3 st in
  let st3 :=
    handleCanvasClick r3 e3
      (handleCanvasClick r2 e2 (handleCanvasClick r1 e1 st)) in
  calStart st3 = Some C
  /\ calEnd st3 = None
  /\ pixels (calibration st3) = distance A B
  /\ knownDistance (calibration st3) = knownDistance (calibration st)
  /\ unit_ (calibration st3) = unit_ (calibration st).
Proof.
  destruct st as [img c m up cs ce cal cur s]; cbn in Hmode, Hstart, Hend.
  subst m cs ce. cbn. repeat split.
Qed.

Lemma click_sequence_keeps_distance_witness :
  mode scenario = CALIBRATE
  /\ calStart scenario = None
  /\ calEnd scenario = None
  /\ let st3 :=
       handleCanvasClick (full_rect sem_image) (click_at 5 5)
         (handleCanvasClick (full_rect sem_image) (click_at 30 40)
            (handleCanvasClick (full_rect sem_image) (click_at 0 0) scenario)) in
     calStart st3 = Some (canvas_point (full_rect sem_image) (click_at 5 5) scenario)
     /\ calEnd st3 = None
     /\ pixels (calibration st3)
        = distance (canvas_point (full_rect sem_image) (click_at 0 0) scenario)
            (canvas_point (full_rect sem_image) (click_at 30 40) scenario)
     /\ knownDistance (calibration st3) = knownDistance (calibration scenario)
     /\ unit_ (calibration st3) = unit_ (calibration scenario).
Proof.
  split; [reflexivity | split; [reflexivity | split; [reflexivity | ]]].
  apply (click_sequence_keeps_distance
           (full_rect sem_image) (full_rect sem_image) (full_rect sem_image)
           (click_at 0 0) (click_at 30 40) (click_at 5 5) scenario);
    reflexivity.
Defined.

(** C2, as stated, fails: after the clicks (0,0), (30,40), (5,5) on the
    scenario session the pixel distance is 50, not 0. *)
Lemma third_click_counterexample :
  let st3 :=
    handleCanvasClick (full_rect sem_image) (click_at 5 5)
      (handleCanvasClick (full_rect sem_image) (click_at 30 40)
         (handleCanvasClick (full_rect sem_image) (click_at 0 0) scenario)) in
  calStart st3 = Some (at_point 5 5)
  /\ calEnd st3 = None
  /\ pixels (calibration st3) = JS.ofZ 50
  /\ pixels (calibration st3) <> JS.ofZ 0
  /\ JS.strict_eq (pixels (calibration st3)) (JS.ofZ 0) = false.
Proof. vm_compute. repeat split; discriminate. Qed.

(** C7: the second calibration click stores the click as the end point and
    sets the pixel distance to the square root of the sum of the squared
    coordinate differences.  Between integer points whose squared
    differences add up to the square of k that is exactly k; from (0,0) to
    (30,40) it is exactly 50. *)
Theorem second_click_sets_distance
  (rect : DOMRect) (e : MouseEvent) (st : EditorState) (start : Point)
  (Hmode : mode st = CALIBRATE)
  (Hstart : calStart st = Some start)
  (Hend : calEnd st = None) :
  let p := canvas_point rect e st in
  let st' := handleCanvasClick rect e st in
  calEnd st' = Some p
  /\ pixels (calibration st')
     = JS.Math_sqrt
         (JS.add (JS.Math_pow2 (JS.sub (px p) (px start)))
                 (JS.Math_pow2 (JS.sub (py p) (py start))))
  /\ (forall ax ay bx by_ k,
        small ax -> small ay -> small bx -> small by_ -> 0 <= k ->
        (bx - ax) * (bx - ax) + (by_ - ay) * (by_ - ay) = k * k ->
        start = at_point ax ay -> p = at_point bx by_ ->
        pixels (calibration st') = JS.ofZ k)
  /\ (start = at_point 0 0 -> p = at_point 30 40 ->
      pixels (calibration st') = JS.ofZ 50).
Proof.
  destruct st as [img c m up cs ce cal cur s]; cbn in Hmode, Hstart, Hend.
  subst m cs ce.
  cbn [handleCanvasClick mode calStart calEnd calibration pixels
       setCalibration setCalEnd setPixels].
  split; [reflexivity | split; [reflexivity | split]].
  - intros ax ay bx by_ k Hax Hay Hbx Hby Hk E -> Hp. rewrite Hp.
    now apply distance_pythagorean.
  - intros -> Hp. rewrite Hp. vm_compute. reflexivity.
Qed.

Lemma second_click_sets_distance_witness :
  let st1 := handleCanvasClick (full_rect sem_image) (click_at 0 0) scenario in
  let st2 := handleCanvasClick (full_rect sem_image) (click_at 30 40) st1 in
  mode st1 = CALIBRATE
  /\ calStart st1 = Some (at_point 0 0)
  /\ calEnd st1 = None
  /\ calEnd st2 = Some (at_point 30 40)
  /\ pixels (calibration st2) = JS.ofZ 50.
Proof.
  cbv zeta.
  split; [reflexivity | split; [reflexivity | split; [reflexivity | ]]].
  destruct (second_click_sets_distance (full_rect sem_image) (click_at 30 40)
              (handleCanvasClick (full_rect sem_image) (click_at 0 0) scenario)
              (at_point 0 0) eq_refl eq_refl eq_refl) as (H1 & _ & _ & H3).
  split; [exact H1 | apply H3; reflexivity].
Defined.

(** ** More on integers in binary64 *)

Lemma truncate_exact (n : Z) :
  Z.abs n < 2 ^ 53 -> truncate (JS.ofZ n) = n.
Proof.
  intros Hn. destruct (Z.eq_dec n 0) as [-> | Hne]; [reflexivity | ].
  destruct (ofZ_canon n Hne Hn) as (-> & E & Hp).
  set (p := Z.to_pos (Z.abs n)) in *.
  pose proof (digits_le_53 p Hp) as Hd.
  unfold canon, truncate. rewrite mant_spec by trivial.
  rewrite <- E at 2. f_equal.
  destruct (0 <=? Z.pos (digits2_pos p) - 53) eqn:L.
  - apply Z.leb_le in L.
    replace (Z.pos (digits2_pos p)) with 53 by lia. cbn. lia.
  - replace (- (Z.pos (digits2_pos p) - 53))
      with (53 - Z.pos (digits2_pos p)) by lia.
    apply Z.div_mul. apply Z.pow_nonzero; lia.
Qed.

(** A canvas takes an integer size up to 2147483647 as it is. *)
Lemma set_dimension_exact (default n : Z) :
  0 <= n <= 2147483647 -> set_dimension default (JS.ofZ n) = JS.ofZ n.
Proof.
  intros Hn. unfold set_dimension.
  rewrite truncate_exact by (change (2 ^ 53) with 9007199254740992; lia).
  rewrite Z.mod_small by (change (2 ^ 32) with 4294967296; lia).
  replace (n <=? 2147483647) with true by (symmetry; apply Z.leb_le; lia).
  reflexivity.
Qed.

(** ** Scale bar *)

(** The scale-bar block of each pipeline is where the pipeline's scale bar
    comes from: the calls before it fill rectangles but write no text. *)
Lemma rect_before_text_draw_scale_bar last (st : EditorState) :
  rect_before_text last (draw_scale_bar st) = bar_rect (draw_scale_bar st).
Proof.
  unfold bar_rect, draw_scale_bar.
  destruct (mode st); try reflexivity.
  destruct (show (settings st) && JS.gt (pixels (calibration st)) (JS.ofZ 0));
    [ | reflexivity].
  destruct (position (settings st)); reflexivity.
Qed.

Lemma rect_before_text_download_scale_bar last tw th (st : EditorState) :
  rect_before_text last
    (download_scale_bar tw th st
     ++ [Download (JS.str "sem-processed.png") (JS.str "image/png")])
  = bar_rect (download_scale_bar tw th st).
Proof.
  unfold bar_rect, download_scale_bar.
  destruct (show (settings st) && JS.gt (pixels (calibration st)) (JS.ofZ 0));
    [ | reflexivity].
  destruct (position (settings st)); reflexivity.
Qed.

Lemma draw_bar_rect cw ch (st : EditorState) (img : HTMLImageElement) :
  imageObj st = Some img ->
  bar_rect (draw cw ch st) = bar_rect (draw_scale_bar st).
Proof.
  intros H. unfold draw. rewrite H. unfold bar_rect at 1.
  destruct (negb (JS.strict_eq cw (img_width img))
            || negb (JS.strict_eq ch (img_height img)));
    cbn [app rect_before_text]; unfold draw_calibration;
    destruct (mode st), (calStart st), (calEnd st);
    cbn [app rect_before_text]; apply rect_before_text_draw_scale_bar.
Qed.

Lemma handleDownload_bar_rect (st : EditorState) (img : HTMLImageElement) :
  imageObj st = Some img ->
  bar_rect (handleDownload st)
  = bar_rect (download_scale_bar (set_dimension 300 (width (crop st)))
                (set_dimension 150 (height (crop st))) st).
Proof.
  intros H. unfold handleDownload. rewrite H. unfold bar_rect at 1.
  cbn [app rect_before_text]. apply rect_before_text_download_scale_bar.
Qed.







(** A click on the enabled export button runs [handleDownload]. *)
Lemma clickExport_enabled (st : EditorState) :
  mode st = EDIT ->
  JS.gt (pixels (calibration st)) (JS.ofZ 0) = true ->
  clickExport st = handleDownload st.
Proof.
  intros Hm Hp. unfold clickExport, exportDisabled.
  now rewrite Hm, (gt_0_not_strict_eq _ Hp).
Qed.

(** C5: with an image loaded and the bar set visible, when the ratio
    pixels / knownDistance is above 0 (the pixel distance being a distance,
    so not below 0), the bar that the preview fills in EDIT mode and the bar
    that the export fills are lengthValue * (pixels / knownDistance) wide,
    and a click on the export button runs that export; a pixel distance of
    50 for a known distance of 10 and a requested length of 5 gives a bar
    of 25 pixels. *)
Theorem bar_width (st : EditorState) (img : HTMLImageElement)
  (cw ch : JS.number)
  (Himg : imageObj st = Some img)
  (Hshow : show (settings st) = true)
  (Hratio : JS.gt (JS.div (pixels (calibration st))
                          (knownDistance (calibration st)))
                  (JS.ofZ 0) = true)
  (Hdist : JS.lt (pixels (calibration st)) (JS.ofZ 0) = false) :
  let barPixelWidth :=
    JS.mul (lengthValue (settings st))
      (JS.div (pixels (calibration st)) (knownDistance (calibration st))) in
  (mode st = EDIT ->
   exists bx by_,
     bar_rect (draw cw ch st)
     = Some (bx, by_, barPixelWidth, barHeight (settings st)))
  /\ (exists bx by_,
         bar_rect (handleDownload st)
         = Some (bx, by_, barPixelWidth, barHeight (settings st)))
  /\ (mode st = EDIT -> clickExport st = handleDownload st)
  /\ (pixels (calibration st) = JS.ofZ 50 ->
      knownDistance (calibration st) = JS.ofZ 10 ->
      lengthValue (settings st) = JS.ofZ 5 ->
      barPixelWidth = JS.ofZ 25).
Proof.
  pose proof (ratio_positive_pixels_positive _ _ Hratio Hdist) as Hpix.
  cbv zeta.
  rewrite (draw_bar_rect cw ch st img Himg),
    (handleDownload_bar_rect st img Himg).
  unfold draw_scale_bar, download_scale_bar.
  rewrite Hshow, Hpix. cbn [andb].
  split; [ | split; [ | split]].
  - intros ->. destruct (position (settings st)); cbn; eauto.
  - destruct (position (settings st)); cbn; eauto.
  - intros Hm. now apply clickExport_enabled.
  - intros -> -> ->. vm_compute. reflexivity.
Qed.

Lemma bar_width_witness :
  let st := setMode EDIT calibrated in
  imageObj st = Some sem_image
  /\ show (settings st) = true
  /\ JS.gt (JS.div (pixels (calibration st)) (knownDistance (calibration st)))
       (JS.ofZ 0) = true
  /\ JS.lt (pixels (calibration st)) (JS.ofZ 0) = false
  /\ (exists bx by_,
         bar_rect (draw (JS.ofZ 300) (JS.ofZ 150) st)
         = Some (bx, by_, JS.ofZ 25, barHeight (settings st)))
  /\ (exists bx by_,
         bar_rect (handleDownload st)
         = Some (bx, by_, JS.ofZ 25, barHeight (settings st)))
  /\ clickExport st = handleDownload st.
Proof.
  cbv zeta.
  destruct (bar_width (setMode EDIT calibrated) sem_image (JS.ofZ 300)
              (JS.ofZ 150) eq_refl eq_refl eq_refl eq_refl)
    as (H1 & H2 & H3 & H4).
  cbv zeta in H4.
  rewrite (H4 eq_refl eq_refl eq_refl) in H1, H2.
  split; [reflexivity | split; [reflexivity | split; [reflexivity | ]]].
  split; [reflexivity | ].
  split; [exact (H1 eq_refl) | split; [exact H2 | exact (H3 eq_refl)]].
Defined.

(** Adding a number other than -0 to zero gives that number. *)
Lemma add_0_l (v : JS.number) :
  v <> S754_zero true -> JS.add (JS.ofZ 0) v = v.
Proof.
  rewrite ofZ_0.
  destruct v as [s | s | | s m e]; try destruct s; cbn; congruence.
Qed.

(** C6: with an image loaded and the bar drawn (set visible, pixel distance
    above 0), the preview fills the bar rectangle in EDIT mode at the anchor
    of the chosen corner in the crop rectangle, and the export, which a
    click on the export button runs, fills it at the anchor of the same
    corner in the output rectangle, moved up by the bar thickness.  The
    output rectangle is that of the canvas the export creates, from (0, 0)
    to the size the canvas takes from the crop, which for a crop of whole
    pixels is the crop size.  The anchors are those of [spec_anchor]; the
    padding is taken not to be the negative zero, so that [0 + p] is [p]. *)
Theorem bar_placement (st : EditorState) (img : HTMLImageElement)
  (cw ch : JS.number)
  (Himg : imageObj st = Some img)
  (Hshow : show (settings st) = true)
  (Hpix : JS.gt (pixels (calibration st)) (JS.ofZ 0) = true)
  (Hpad : overlayPadding (settings st) <> S754_zero true) :
  let s := settings st in
  let barPixelWidth :=
    JS.mul (lengthValue s)
      (JS.div (pixels (calibration st)) (knownDistance (calibration st))) in
  let tw := set_dimension 300 (width (crop st)) in
  let th := set_dimension 150 (height (crop st)) in
  let preview :=
    spec_anchor (position s) (crop_rect (crop st)) barPixelWidth
      (overlayPadding s) (fontSize s) in
  let export :=
    spec_anchor (position s) (output_rect tw th) barPixelWidth
      (overlayPadding s) (fontSize s) in
  (mode st = EDIT ->
   bar_rect (draw cw ch st)
   = Some (fst preview, snd preview, barPixelWidth, barHeight s))
  /\ bar_rect (handleDownload st)
     = Some (fst export, JS.sub (snd export) (barHeight s), barPixelWidth,
             barHeight s)
  /\ (mode st = EDIT -> clickExport st = handleDownload st)
  /\ (forall w h : Z,
         pixel w -> pixel h ->
         width (crop st) = JS.ofZ w -> height (crop st) = JS.ofZ h ->
         output_rect tw th
         = {| r_left := JS.ofZ 0; r_top := JS.ofZ 0;
              r_right := width (crop st); r_bottom := height (crop st) |}).
Proof.
  cbv zeta.
  rewrite (draw_bar_rect cw ch st img Himg),
    (handleDownload_bar_rect st img Himg).
  unfold draw_scale_bar, download_scale_bar.
  rewrite Hshow, Hpix. cbn [andb].
  split; [ | split; [ | split]].
  - intros ->.
    destruct (position (settings st));
      cbn [bar_rect rect_before_text spec_anchor crop_rect fst snd
           r_left r_top r_right r_bottom]; reflexivity.
  - destruct (position (settings st));
      cbn [bar_rect rect_before_text spec_anchor output_rect fst snd
           r_left r_top r_right r_bottom];
      rewrite ?(add_0_l _ Hpad); reflexivity.
  - intros Hm. now apply clickExport_enabled.
  - intros w h Hw Hh -> ->. unfold output_rect, pixel in *.
    now rewrite !set_dimension_exact.
Qed.

Lemma bar_placement_witness :
  let st := setMode EDIT calibrated in
  imageObj st = Some sem_image
  /\ show (settings st) = true
  /\ JS.gt (pixels (calibration st)) (JS.ofZ 0) = true
  /\ overlayPadding (settings st) <> S754_zero true
  /\ position (settings st) = bottom_right
  /\ crop st = crop_of {| zx := 0; zy := 0; zw := 1000; zh := 700 |}
  /\ bar_rect (draw (JS.ofZ 300) (JS.ofZ 150) st)
     = Some (JS.ofZ 935, JS.ofZ 660, JS.ofZ 25, JS.ofZ 8)
  /\ bar_rect (handleDownload st)
     = Some (JS.ofZ 935, JS.ofZ 652, JS.ofZ 25, JS.ofZ 8)
  /\ clickExport st = handleDownload st.
Proof.
  cbv zeta.
  assert (Hpad : overlayPadding (settings (setMode EDIT calibrated))
                 <> S754_zero true) by discriminate.
  split; [reflexivity | split; [reflexivity | split; [reflexivity | ]]].
  split; [exact Hpad | split; [reflexivity | split; [reflexivity | ]]].
  destruct (bar_placement (setMode EDIT calibrated) sem_image (JS.ofZ 300)
              (JS.ofZ 150) eq_refl eq_refl eq_refl Hpad)
    as (H1 & H2 & H3 & _).
  split; [exact (H1 eq_refl) | split; [exact H2 | exact (H3 eq_refl)]].
Defined.

(** ** Image load *)

Lemma onload_crop s text img st :
  crop (onload s text img st)
  = {| x := JS.ofZ 0; y := JS.ofZ 0; width := img_width img;
       height := if JS.gt s (JS.ofZ 0) then s else img_height img |}.
Proof.
  unfold onload. destruct text as [[ | c t] | ]; try reflexivity.
  destruct (2 <=? _)%nat; try reflexivity.
  destruct (negb _); reflexivity.
Qed.

(** An image height is zero or positive. *)
Lemma ofZ_of_N_sign (n : N) :
  let r := JS.ofZ (Z.of_N n) in
  r = S754_zero false \/ r = S754_infinity false \/ r = S754_nan
  \/ exists m e, r = S754_finite false m e.
Proof.
  destruct n as [ | p]; [left; reflexivity | ].
  cbn [Z.of_N]. unfold JS.ofZ, binary_normalize, binary_round.
  destruct (shl_align _ _ _) as [mz ez].
  apply binary_round_aux_sign.
Qed.

Lemma above_height_positive (s : JS.number) (n : N) :
  JS.gt s (JS.ofZ (Z.of_N n)) = true -> JS.gt s (JS.ofZ 0) = true.
Proof.
  rewrite ofZ_0.
  destruct (ofZ_of_N_sign n) as [H | [H | [H | (m & e & H)]]];
    cbv zeta in H; rewrite H; clear H;
    destruct s as [b | b | | b m' e']; try destruct b; cbn; congruence.
Qed.

(** C10: on load, a suggested crop line above 0 becomes the crop height as
    it is: above the image height it puts the bottom edge of the crop
    outside the image, and below 10 it gives a crop lower than 10 pixels. *)
Theorem initial_crop_unclamped
  (s : JS.number) (text : option JS.jsstring) (img : HTMLImageElement)
  (st : EditorState) :
  let c := crop (onload s text img st) in
  (JS.gt s (JS.ofZ 0) = true ->
   x c = JS.ofZ 0 /\ y c = JS.ofZ 0 /\ width c = img_width img
   /\ height c = s)
  /\ (JS.gt s (img_height img) = true ->
      JS.gt (JS.add (y c) (height c)) (img_height img) = true)
  /\ (JS.gt s (JS.ofZ 0) = true -> JS.lt s (JS.ofZ 10) = true ->
      JS.lt (height c) (JS.ofZ 10) = true).
Proof.
  cbv zeta. rewrite onload_crop. cbn [x y width height].
  split; [ | split].
  - intros ->. repeat split.
  - intros H. pose proof (above_height_positive _ _ H) as Hpos.
    rewrite Hpos, (add_0_positive _ Hpos). exact H.
  - intros ->. trivial.
Qed.

Lemma initial_crop_unclamped_witness :
  (let c := crop (onload (JS.ofZ 900) None sem_image initialState) in
   JS.gt (JS.ofZ 900) (img_height sem_image) = true
   /\ height c = JS.ofZ 900
   /\ JS.gt (JS.add (y c) (height c)) (img_height sem_image) = true)
  /\ (let c := crop (onload (JS.ofZ 5) None sem_image initialState) in
      JS.gt (JS.ofZ 5) (JS.ofZ 0) = true
      /\ JS.lt (JS.ofZ 5) (JS.ofZ 10) = true
      /\ JS.lt (height c) (JS.ofZ 10) = true).
Proof.
  cbv zeta. split.
  - destruct (initial_crop_unclamped (JS.ofZ 900) None sem_image initialState)
      as (H1 & H2 & _).
    split; [reflexivity | split; [apply H1; reflexivity | apply H2; reflexivity]].
  - destruct (initial_crop_unclamped (JS.ofZ 5) None sem_image initialState)
      as (_ & _ & H3).
    split; [reflexivity | split; [reflexivity | apply H3; reflexivity]].
Defined.

(** *** The detected scale text *)

Lemma split_ws_from_token (tok rest cur : JS.jsstring) :
  no_ws tok = true ->
  JS.split_ws_from false cur (tok ++ rest)
  = JS.split_ws_from false (rev tok ++ cur) rest.
Proof.
  revert cur. induction tok as [ | c t IH]; intros cur H; [reflexivity | ].
  cbn in H. apply andb_prop in H as [Hc Ht].
  apply negb_true_iff in Hc.
  cbn [app JS.split_ws_from rev]. rewrite Hc, (IH _ Ht), <- app_assoc.
  reflexivity.
Qed.

Lemma split_ws_from_run (ws rest : JS.jsstring) :
  all_ws ws = true ->
  JS.split_ws_from true [] (ws ++ rest) = JS.split_ws_from true [] rest.
Proof.
  induction ws as [ | c t IH]; intros H; [reflexivity | ].
  cbn in H. apply andb_prop in H as [Hc Ht].
  cbn [app JS.split_ws_from]. rewrite Hc. auto.
Qed.

Lemma split_ws_from_last (tok : JS.jsstring) :
  no_ws tok = true -> tok <> [] ->
  JS.split_ws_from true [] tok = [tok].
Proof.
  intros H Hne. destruct tok as [ | c t]; [congruence | ].
  cbn in H. apply andb_prop in H as [Hc Ht].
  apply negb_true_iff in Hc.
  cbn [JS.split_ws_from]. rewrite Hc.
  rewrite <- (app_nil_r t) at 1.
  rewrite (split_ws_from_token t [] [c] Ht).
  cbn [JS.split_ws_from]. rewrite rev_app_distr, rev_involutive. reflexivity.
Qed.

Lemma trimStart_token (tok rest : JS.jsstring) :
  no_ws tok = true -> tok <> [] ->
  JS.trimStart (tok ++ rest) = tok ++ rest.
Proof.
  intros H Hne. destruct tok as [ | c t]; [congruence | ].
  cbn in H. apply andb_prop in H as [Hc _].
  apply negb_true_iff in Hc. cbn. now rewrite Hc.
Qed.

Lemma no_ws_rev (s : JS.jsstring) : no_ws s = true -> no_ws (rev s) = true.
Proof.
  unfold no_ws. rewrite !forallb_forall. intros H c Hc.
  apply H, in_rev, Hc.
Qed.

Lemma trim_between_tokens (a mid b : JS.jsstring) :
  no_ws a = true -> a <> [] -> no_ws b = true -> b <> [] ->
  JS.trim (a ++ mid ++ b) = a ++ mid ++ b.
Proof.
  intros Ha Hane Hb Hbne. unfold JS.trim.
  rewrite (trimStart_token a _ Ha Hane).
  replace (rev (a ++ mid ++ b)) with (rev b ++ rev (a ++ mid))
    by (now rewrite (app_assoc a mid b), (rev_app_distr (a ++ mid) b)).
  rewrite trimStart_token.
  - now rewrite rev_app_distr, !rev_involutive, <- app_assoc.
  - now apply no_ws_rev.
  - intros E. apply (f_equal (@rev N)) in E.
    rewrite rev_involutive in E. contradiction.
Qed.

(** A text made of two tokens with white space in between splits into the
    two tokens. *)
Lemma split_two_tokens (number sep unit : JS.jsstring) :
  no_ws number = true -> number <> [] ->
  all_ws sep = true -> sep <> [] ->
  no_ws unit = true -> unit <> [] ->
  JS.split_ws (JS.trim (number ++ sep ++ unit)) = [number; unit].
Proof.
  intros Hn Hnne Hs Hsne Hu Hune.
  rewrite trim_between_tokens by assumption.
  unfold JS.split_ws. rewrite (split_ws_from_token number _ [] Hn).
  destruct sep as [ | c ws]; [congruence | ].
  cbn in Hs. apply andb_prop in Hs as [Hc Hws].
  cbn [app JS.split_ws_from]. rewrite Hc.
  rewrite (split_ws_from_run ws unit Hws), (split_ws_from_last unit Hu Hune).
  now rewrite app_nil_r, rev_involutive.
Qed.

Lemma mountEditor_seeded (r : SemAnalysisResult) (img : HTMLImageElement)
  (text number unit : JS.jsstring) (rest : list JS.jsstring) :
  detectedScaleText r = Some text ->
  JS.split_ws (JS.trim text) = number :: unit :: rest ->
  JS.isNaN (JS.parseFloat number) = false ->
  seeded_with (mountEditor r img) (JS.parseFloat number) unit.
Proof.
  intros Ht Hs Hn. unfold mountEditor, onload. rewrite Ht.
  destruct text as [ | c t]; [discriminate Hs | ].
  rewrite Hs. cbn [List.length Nat.leb nth]. rewrite Hn.
  repeat split.
Qed.

Lemma mountEditor_unseeded (r : SemAnalysisResult) (img : HTMLImageElement) :
  match detectedScaleText r with
  | Some text =>
      forall number unit rest,
        JS.split_ws (JS.trim text) = number :: unit :: rest ->
        JS.isNaN (JS.parseFloat number) = true
  | None => True
  end ->
  unseeded (mountEditor r img).
Proof.
  unfold mountEditor, onload.
  destruct (detectedScaleText r) as [[ | c t] | ]; intros H;
    try (split; reflexivity).
  destruct (JS.split_ws (JS.trim (c :: t))) as [ | number [ | unit rest]];
    try (split; reflexivity).
  cbn [List.length Nat.leb nth]. rewrite (H number unit rest eq_refl).
  split; reflexivity.
Qed.

(** C4, amended: when the trimmed text has at least two tokens separated by
    white space and [parseFloat] of the first token is a number, loading
    seeds the known distance with that number, the unit and the bar's unit
    with the second token, and the default bar length with half the number;
    in every other case, and when there is no text, the calibration and the
    settings keep their initial values.  A failure of the service gives a
    suggested crop line of 0 and no text, hence the full image as crop and
    nothing seeded. *)
Theorem load_seeds_from_text (r : SemAnalysisResult) (img : HTMLImageElement) :
  let st := mountEditor r img in
  (forall text number unit rest,
      detectedScaleText r = Some text ->
      JS.split_ws (JS.trim text) = number :: unit :: rest ->
      JS.isNaN (JS.parseFloat number) = false ->
      seeded_with st (JS.parseFloat number) unit)
  /\ (forall number sep unit,
      detectedScaleText r = Some (number ++ sep ++ unit) ->
      no_ws number = true -> number <> [] ->
      all_ws sep = true -> sep <> [] ->
      no_ws unit = true -> unit <> [] ->
      JS.isNaN (JS.parseFloat number) = false ->
      seeded_with st (JS.parseFloat number) unit)
  /\ (forall text,
      detectedScaleText r = Some text ->
      (forall number unit rest,
          JS.split_ws (JS.trim text) = number :: unit :: rest ->
          JS.isNaN (JS.parseFloat number) = true) ->
      unseeded st)
  /\ (detectedScaleText r = None -> unseeded st)
  /\ (let f := analyzeSemImage None in
      suggestedCropY f = JS.ofZ 0
      /\ detectedScaleText f = None
      /\ unseeded (mountEditor f img)
      /\ crop (mountEditor f img)
         = {| x := JS.ofZ 0; y := JS.ofZ 0; width := img_width img;
              height := img_height img |}).
Proof.
  cbv zeta. split; [ | split; [ | split; [ | split]]].
  - intros text number unit rest. apply mountEditor_seeded.
  - intros number sep unit Ht Hn Hnne Hs Hsne Hu Hune Hnan.
    apply (mountEditor_seeded r img _ number unit [] Ht); [ | exact Hnan].
    now apply split_two_tokens.
  - intros text Ht H. apply mountEditor_unseeded. now rewrite Ht.
  - intros Ht. apply mountEditor_unseeded. now rewrite Ht.
  - repeat split.
Qed.

Lemma load_seeds_from_text_witness :
  detectedScaleText
    {| suggestedCropY := JS.ofZ 700;
       detectedScaleText := Some (JS.str "10" ++ JS.str " " ++ micro_m) |}
  = Some (JS.str "10" ++ JS.str " " ++ micro_m)
  /\ JS.isNaN (JS.parseFloat (JS.str "10")) = false
  /\ JS.parseFloat (JS.str "10") = JS.ofZ 10
  /\ JS.div (JS.ofZ 10) (JS.ofZ 2) = JS.ofZ 5
  /\ seeded_with scenario (JS.parseFloat (JS.str "10")) micro_m
  /\ crop scenario
     = {| x := JS.ofZ 0; y := JS.ofZ 0; width := JS.ofZ 1000;
          height := JS.ofZ 700 |}.
Proof.
  repeat (split; [reflexivity | ]). split; [ | reflexivity].
  refine (proj1 (proj2 (load_seeds_from_text
            {| suggestedCropY := JS.ofZ 700;
               detectedScaleText :=
                 Some (JS.str "10" ++ JS.str " " ++ micro_m) |}
            sem_image)) (JS.str "10") (JS.str " ") micro_m
            eq_refl eq_refl _ eq_refl _ eq_refl _ eq_refl); discriminate.
Defined.

(** C4, as stated, fails: for the text "200 nm scale" the unit that is
    seeded is "nm", neither the remainder "nm scale" nor the initial unit;
    and the token "10abc", which is not a number, seeds a known distance of
    10. *)
Lemma scale_text_counterexample :
  (let st :=
     mountEditor
       {| suggestedCropY := JS.ofZ 700;
          detectedScaleText := Some (JS.str "200 nm scale") |} sem_image in
   knownDistance (calibration st) = JS.ofZ 200
   /\ unit_ (calibration st) = JS.str "nm"
   /\ unit_ (calibration st) <> JS.str "nm scale"
   /\ unit_ (calibration st) <> unit_ (calibration initialState))
  /\ (let st :=
        mountEditor
          {| suggestedCropY := JS.ofZ 700;
             detectedScaleText := Some (JS.str "10abc nm") |} sem_image in
      knownDistance (calibration st) = JS.ofZ 10
      /\ unit_ (calibration st) = JS.str "nm"
      /\ lengthValue (settings st) = JS.ofZ 5).
Proof. vm_compute. repeat split; discriminate. Qed.

(** ** Crop insets *)

Ltac safe_lia :=
  unfold safe, clamp in *;
  change (2 ^ 50) with 1125899906842624 in *;
  change (2 ^ 53) with 9007199254740992 in *;
  lia.

(** On integer pixels the handler computes the edit of the specification. *)
Lemma updateCropInset_refines (type : Inset) (valueStr : JS.jsstring)
  (st : EditorState) (img : HTMLImageElement) (c : ZCrop) (v : Z) :
  imageObj st = Some img ->
  crop st = crop_of c ->
  parseInputValue (usePercent st) valueStr (inset_dimension type img)
  = JS.ofZ v ->
  safe (Z.of_N (naturalWidth img)) -> safe (Z.of_N (naturalHeight img)) ->
  safe (zx c) -> safe (zy c) -> safe (zw c) -> safe (zh c) -> safe v ->
  crop (updateCropInset type valueStr st)
  = crop_of (spec_inset_edit type (Z.of_N (naturalWidth img))
               (Z.of_N (naturalHeight img)) v c).
Proof.
  intros Himg Hcrop Hval HW HH Hx Hy Hw Hh Hv.
  unfold updateCropInset. rewrite Himg.
  destruct type; cbn [inset_dimension] in Hval; cbn [crop setCrop];
    rewrite Hval, Hcrop;
    unfold crop_of, spec_inset_edit, img_height, img_width;
    cbn [x y width height zx zy zw zh].
  - rewrite add_exact, sub_exact, Math_min_exact, Math_max_exact, sub_exact
      by safe_lia.
    reflexivity.
  - rewrite sub_exact, sub_exact, Math_max_exact by safe_lia. reflexivity.
  - rewrite add_exact, sub_exact, Math_min_exact, Math_max_exact, sub_exact
      by safe_lia.
    reflexivity.
  - rewrite sub_exact, sub_exact, Math_max_exact by safe_lia. reflexivity.
Qed.

(** The edits of the top and left insets keep the bounds whatever the value;
    those of the bottom and right insets keep them for a value that is not
    negative. *)
Lemma spec_inset_edit_keeps_bounds (type : Inset) (W H v : Z) (c : ZCrop) :
  zcrop_in_bounds W H c ->
  type = top_inset \/ type = left_inset \/ 0 <= v ->
  zcrop_in_bounds W H (spec_inset_edit type W H v c).
Proof.
  unfold zcrop_in_bounds, spec_inset_edit, clamp.
  intros Hb Ht.
  destruct type; cbn [zx zy zw zh];
    destruct Ht as [Ht | [Ht | Ht]]; try discriminate; lia.
Qed.

Lemma crop_in_bounds_exact (W H : Z) (c : ZCrop) :
  safe W -> safe H -> safe (zx c) -> safe (zy c) -> safe (zw c) ->
  safe (zh c) ->
  crop_in_bounds (JS.ofZ W) (JS.ofZ H) (crop_of c) = true
  <-> zcrop_in_bounds W H c.
Proof.
  intros HW HH Hx Hy Hw Hh.
  unfold crop_in_bounds, zcrop_in_bounds, crop_of.
  cbn [x y width height].
  rewrite !add_exact, !leb_exact by safe_lia.
  rewrite !andb_true_iff, !Z.leb_le. tauto.
Qed.

(** From an integer crop within the bounds, the handler keeps the bounds on
    an edit of the top or left inset, and on an edit of the bottom or right
    inset by a value that is not negative. *)
Lemma inset_edit_keeps_bounds (type : Inset) (valueStr : JS.jsstring)
  (st : EditorState) (img : HTMLImageElement) (c : ZCrop) (v : Z) :
  imageObj st = Some img ->
  crop st = crop_of c ->
  parseInputValue (usePercent st) valueStr (inset_dimension type img)
  = JS.ofZ v ->
  safe (Z.of_N (naturalWidth img)) -> safe (Z.of_N (naturalHeight img)) ->
  safe v ->
  zcrop_in_bounds (Z.of_N (naturalWidth img)) (Z.of_N (naturalHeight img)) c ->
  type = top_inset \/ type = left_inset \/ 0 <= v ->
  crop_in_bounds (img_width img) (img_height img)
    (crop (updateCropInset type valueStr st)) = true.
Proof.
  intros Himg Hcrop Hval HW HH Hv Hb Ht.
  assert (Hs : safe (zx c) /\ safe (zy c) /\ safe (zw c) /\ safe (zh c))
    by (unfold zcrop_in_bounds in Hb; repeat split; safe_lia).
  destruct Hs as (Hx & Hy & Hw & Hh).
  rewrite (updateCropInset_refines type valueStr st img c v) by assumption.
  pose proof (spec_inset_edit_keeps_bounds type _ _ v c Hb Ht) as Hb'.
  apply crop_in_bounds_exact; trivial;
    unfold zcrop_in_bounds in Hb, Hb'; safe_lia.
Qed.

(** C1 fails on the code: on a 100 by 100 image with the full image as crop,
    which is within the bounds, typing -5 in the bottom inset gives a crop
    of height 105 and typing -5 in the right inset a crop of width 105, both
    outside the image; typing -5 in the top inset is clamped to 0. *)
Theorem negative_inset_leaves_image :
  crop_in_bounds (img_width small_image) (img_height small_image)
    (crop fallback_session) = true
  /\ crop (updateCropInset bottom_inset (JS.str "-5") fallback_session)
     = crop_of {| zx := 0; zy := 0; zw := 100; zh := 105 |}
  /\ crop_in_bounds (img_width small_image) (img_height small_image)
       (crop (updateCropInset bottom_inset (JS.str "-5") fallback_session))
     = false
  /\ crop (updateCropInset right_inset (JS.str "-5") fallback_session)
     = crop_of {| zx := 0; zy := 0; zw := 105; zh := 100 |}
  /\ crop_in_bounds (img_width small_image) (img_height small_image)
       (crop (updateCropInset right_inset (JS.str "-5") fallback_session))
     = false
  /\ crop (updateCropInset top_inset (JS.str "-5") fallback_session)
     = crop fallback_session.
Proof. vm_compute. repeat split. Qed.

Lemma updateCropInset_frame (type : Inset) (valueStr : JS.jsstring)
  (st : EditorState) :
  imageObj (updateCropInset type valueStr st) = imageObj st
  /\ usePercent (updateCropInset type valueStr st) = usePercent st.
Proof.
  unfold updateCropInset.
  destruct (imageObj st) eqn:E; cbn [imageObj usePercent setCrop]; auto.
Qed.

(** ** Rounding, within a few units in the last place *)

Lemma shr_1_half (mrs : shr_record) :
  0 <= shr_m mrs -> shr_m (shr_1 mrs) = shr_m mrs / 2 /\ 0 <= shr_m (shr_1 mrs).
Proof.
  destruct mrs as [m r s]. cbn [shr_m]. intros Hm.
  destruct m as [ | [p | p | ] | p]; cbn [shr_1 shr_m]; try lia;
    (split; [rewrite <- Z.div2_div; reflexivity | lia]).
Qed.

Lemma shr_floor (n : positive) : forall mrs : shr_record,
  0 <= shr_m mrs ->
  shr_m (iter_pos shr_1 n mrs) = shr_m mrs / 2 ^ Z.pos n
  /\ 0 <= shr_m (iter_pos shr_1 n mrs).
Proof.
  induction n as [n IH | n IH | ]; intros mrs Hm; cbn [iter_pos].
  - destruct (shr_1_half mrs Hm) as [E1 P1].
    destruct (IH _ P1) as [E2 P2]. destruct (IH _ P2) as [E3 P3].
    split; [ | exact P3].
    rewrite E3, E2, E1, pow2_xI.
    assert (0 < 2 ^ Z.pos n) by (apply Z.pow_pos_nonneg; lia).
    rewrite !Z.div_div by lia. f_equal. lia.
  - destruct (IH _ Hm) as [E2 P2]. destruct (IH _ P2) as [E3 P3].
    split; [ | exact P3].
    rewrite E3, E2, pow2_xO.
    assert (0 < 2 ^ Z.pos n) by (apply Z.pow_pos_nonneg; lia).
    rewrite !Z.div_div by lia. reflexivity.
  - rewrite Z.pow_1_r. now apply shr_1_half.
Qed.

Lemma shr_m_of_loc (m : Z) (l : location) : shr_m (shr_record_of_loc m l) = m.
Proof. destruct l as [ | [ | | ]]; reflexivity. Qed.

(** A right shift by [Z.max 0 n] bits. *)
Lemma shr_spec (m e n : Z) (l : location) :
  0 <= m ->
  let '(mrs, e') := shr (shr_record_of_loc m l) e n in
  shr_m mrs = m / 2 ^ Z.max 0 n /\ e' = e + Z.max 0 n.
Proof.
  intros Hm. destruct n as [ | p | p]; cbn [shr].
  - rewrite shr_m_of_loc. cbn. rewrite Z.div_1_r. lia.
  - destruct (shr_floor p (shr_record_of_loc m l)) as [E _];
      [now rewrite shr_m_of_loc | ].
    rewrite E, shr_m_of_loc.
    replace (Z.max 0 (Z.pos p)) with (Z.pos p) by lia. lia.
  - rewrite shr_m_of_loc. cbn. rewrite Z.div_1_r. lia.
Qed.

Lemma round_nearest_even_near (m : Z) (l : location) :
  m <= round_nearest_even m l <= m + 1.
Proof.
  destruct l as [ | [ | | ]]; cbn [round_nearest_even]; try lia.
  destruct (Z.even m); lia.
Qed.

Lemma Zdigits2_bound (m : Z) : 0 <= m -> m < 2 ^ Zdigits2 m /\ 0 <= Zdigits2 m.
Proof.
  intros Hm. destruct m as [ | p | p]; [cbn; lia | | lia].
  cbn [Zdigits2]. rewrite digits2_log2.
  pose proof (Z.log2_nonneg (Z.pos p)).
  split; [ | lia].
  replace (Z.log2 (Z.pos p) + 1) with (Z.succ (Z.log2 (Z.pos p))) by lia.
  apply Z.log2_spec. lia.
Qed.

Lemma Zdigits2_le (m : Z) (k : Z) : 0 <= m -> 0 <= k -> m < 2 ^ k -> Zdigits2 m <= k.
Proof.
  intros Hm Hk H. destruct m as [ | p | p]; [cbn; lia | | lia].
  cbn [Zdigits2]. rewrite digits2_log2.
  assert (Z.log2 (Z.pos p) < k); [ | lia].
  destruct (Z.eq_dec k 0) as [-> | Hk0]; [cbn in H; lia | ].
  apply Z.log2_lt_pow2; lia.
Qed.

(** What rounding does to a mantissa: a shift that leaves at most 53 bits,
    one step up at most, and a second shift by a bit at most. *)
Lemma round_aux_shape (s : bool) (mx ex : Z) (l : location) :
  0 <= mx ->
  let e1 := Z.max ex (fexp JS.prec JS.emax (Zdigits2 mx + ex)) in
  exists r k2,
    mx / 2 ^ (e1 - ex) <= r <= mx / 2 ^ (e1 - ex) + 1
    /\ 0 <= k2 <= 1
    /\ binary_round_aux JS.prec JS.emax s mx ex l
       = match r / 2 ^ k2 with
         | Z0 => S754_zero s
         | Z.pos m =>
             if e1 + k2 <=? 971 then S754_finite s m (e1 + k2)
             else S754_infinity s
         | Z.neg _ => S754_nan
         end.
Proof.
  intros Hm e1. unfold binary_round_aux, shr_fexp.
  set (f := fexp JS.prec JS.emax (Zdigits2 mx + ex)) in *.
  pose proof (shr_spec mx ex (f - ex) l Hm) as S1.
  destruct (shr (shr_record_of_loc mx l) ex (f - ex)) as [mrs' e'].
  destruct S1 as [Em Ee].
  replace (Z.max 0 (f - ex)) with (e1 - ex) in Em, Ee by (unfold e1; lia).
  replace (ex + (e1 - ex)) with e1 in Ee by lia. subst e'.
  set (r := round_nearest_even (shr_m mrs') (loc_of_shr_record mrs')).
  pose proof (round_nearest_even_near (shr_m mrs') (loc_of_shr_record mrs'))
    as Hr. fold r in Hr. rewrite Em in Hr.
  assert (Hpow : 0 < 2 ^ (e1 - ex)) by (apply Z.pow_pos_nonneg; unfold e1; lia).
  assert (Hm1 : 0 <= mx / 2 ^ (e1 - ex)) by (apply Z.div_pos; lia).
  assert (Hr0 : 0 <= r) by lia.
  pose proof (shr_spec r e1 (fexp JS.prec JS.emax (Zdigits2 r + e1) - e1)
                loc_Exact Hr0) as S2.
  destruct (shr (shr_record_of_loc r loc_Exact) e1
              (fexp JS.prec JS.emax (Zdigits2 r + e1) - e1)) as [mrs'' e''].
  destruct S2 as [Em2 Ee2].
  set (k2 := Z.max 0 (fexp JS.prec JS.emax (Zdigits2 r + e1) - e1)) in *.
  exists r, k2. split; [exact Hr | ].
  assert (Hk2 : 0 <= k2 <= 1).
  { split; [unfold k2; lia | ].
    assert (Hd : Zdigits2 r <= 54).
    { apply Zdigits2_le; [lia | lia | ].
      destruct (Zdigits2_bound mx Hm) as [Hb Hd0].
      assert (mx / 2 ^ (e1 - ex) < 2 ^ 53); [ | lia].
      apply Z.div_lt_upper_bound; [lia | ].
      rewrite <- Z.pow_add_r by (unfold e1; lia).
      eapply Z.lt_le_trans; [exact Hb | ].
      apply Z.pow_le_mono_r; [lia | ].
      unfold e1, f, fexp, emin, JS.prec, JS.emax. lia. }
    unfold k2, fexp, emin, JS.prec, JS.emax in *.
    unfold e1, f, fexp, emin, JS.prec, JS.emax. lia. }
  split; [exact Hk2 | ].
  rewrite Em2, Ee2. unfold JS.emax, JS.prec.
  change (1024 - 53) with 971. reflexivity.
Qed.

Lemma Q2_neq_0 : ~ (2 == 0)%Q.
Proof. intros H. unfold Qeq in H. cbn in H. lia. Qed.

Lemma Q2_pow_pos (e : Z) : (0 < 2 ^ e)%Q.
Proof. apply Qpower_0_lt. reflexivity. Qed.

Lemma Q2_pow_add (a b : Z) : (2 ^ (a + b) == 2 ^ a * 2 ^ b)%Q.
Proof. apply Qpower_plus, Q2_neq_0. Qed.

Lemma Q2_pow_Z (k : Z) : 0 <= k -> (inject_Z (2 ^ k) == 2 ^ k)%Q.
Proof. intros H. now rewrite Zpower_Qpower. Qed.

Lemma Q2_pow_le (a b : Z) : a <= b -> (2 ^ a <= 2 ^ b)%Q.
Proof. intros H. apply Qpower_le_compat_l; [exact H | ]. unfold Qle. cbn. lia. Qed.

(** The floor of a quotient by a power of two, in the rationals. *)
Lemma floor_scale (mx k ex : Z) :
  0 <= k -> 0 <= mx ->
  (inject_Z (mx / 2 ^ k) * 2 ^ (ex + k) <= inject_Z mx * 2 ^ ex
   /\ inject_Z mx * 2 ^ ex < (inject_Z (mx / 2 ^ k) + 1) * 2 ^ (ex + k))%Q.
Proof.
  intros Hk Hm.
  assert (Hp : 0 < 2 ^ k) by (apply Z.pow_pos_nonneg; lia).
  pose proof (Z.mul_div_le mx (2 ^ k) Hp) as H1.
  pose proof (Z.mul_succ_div_gt mx (2 ^ k) Hp) as H2.
  rewrite Zle_Qle in H1. rewrite Zlt_Qlt in H2.
  rewrite inject_Z_mult in H1, H2. unfold Z.succ in H2.
  rewrite inject_Z_plus in H2. rewrite Q2_pow_Z in H1, H2 by trivial.
  rewrite Q2_pow_add.
  pose proof (Q2_pow_pos ex). pose proof (Q2_pow_pos k).
  change (inject_Z 1) with 1%Q in H2.
  split; nra.
Qed.

Ltac to_Q H :=
  first [rewrite Zle_Qle in H | rewrite Zlt_Qlt in H];
  repeat first [rewrite inject_Z_plus in H | rewrite inject_Z_mult in H
               | rewrite inject_Z_opp in H];
  change (inject_Z 0) with 0%Q in H; change (inject_Z 1) with 1%Q in H;
  change (inject_Z 2) with 2%Q in H.

(** Rounding a positive mantissa moves the value by less than three units in
    the last place kept. *)
Lemma round_aux_crude (mx ex : Z) (l : location) :
  0 <= mx ->
  let e1 := Z.max ex (fexp JS.prec JS.emax (Zdigits2 mx + ex)) in
  e1 + 1 <= 971 ->
  let r := binary_round_aux JS.prec JS.emax false mx ex l in
  (r = S754_zero false
   \/ exists m e, r = S754_finite false m e /\ e1 <= e <= e1 + 1)
  /\ (inject_Z mx * 2 ^ ex - 3 * 2 ^ e1 <= value r
      /\ value r <= inject_Z mx * 2 ^ ex + 2 ^ e1)%Q.
Proof.
  intros Hm e1 He1 r.
  destruct (round_aux_shape false mx ex l Hm) as (r0 & k2 & Hr & Hk2 & E).
  fold e1 in Hr, E. fold r in E.
  assert (Hk : 0 <= e1 - ex) by (unfold e1; lia).
  destruct (floor_scale mx (e1 - ex) ex Hk Hm) as [F1 F2].
  replace (ex + (e1 - ex)) with e1 in F1, F2 by lia.
  set (m1 := mx / 2 ^ (e1 - ex)) in *.
  assert (Hm1 : 0 <= m1).
  { apply Z.div_pos; [lia | apply Z.pow_pos_nonneg; lia]. }
  pose proof (Q2_pow_pos e1) as HP.
  destruct Hr as [Hr1 Hr2].
  assert (Hk2' : k2 = 0 \/ k2 = 1) by lia.
  destruct Hk2' as [-> | ->].
  - rewrite Z.pow_0_r, Z.div_1_r, Z.add_0_r in E.
    replace (e1 <=? 971) with true in E by (symmetry; apply Z.leb_le; lia).
    destruct r0 as [ | p | p]; [ | | lia]; rewrite E;
      to_Q Hm1; to_Q Hr1; to_Q Hr2.
    + split; [now left | ]. cbn [value]. split; nra.
    + split; [right; exists p, e1; split; [reflexivity | lia] | ].
      cbn [value cond_Zopp]. split; nra.
  - rewrite Z.pow_1_r in E.
    replace (e1 + 1 <=? 971) with true in E by (symmetry; apply Z.leb_le; lia).
    assert (H2 : 2 * (r0 / 2) <= r0) by (apply Z.mul_div_le; lia).
    assert (H3 : r0 < 2 * (r0 / 2) + 2).
    { pose proof (Z.mul_succ_div_gt r0 2 ltac:(lia)). lia. }
    assert (H4 : 0 <= r0 / 2) by (apply Z.div_pos; lia).
    pose proof (Q2_pow_add e1 1) as HP2.
    change (2 ^ 1)%Q with 2%Q in HP2.
    destruct (r0 / 2) as [ | p | p]; [ | | lia]; rewrite E;
      to_Q Hm1; to_Q Hr1; to_Q Hr2; to_Q H2; to_Q H3; to_Q H4.
    + split; [now left | ]. cbn [value]. split; nra.
    + split; [right; exists p, (e1 + 1); split; [reflexivity | lia] | ].
      cbn [value cond_Zopp]. rewrite HP2. split; nra.
Qed.

(** ** Decimal numerals *)

Lemma uint_digits_list (u : Decimal.uint) :
  JS.uint_digits u
  = map (fun d => Z.to_N (48 + digit_value d)) (DecimalFacts.to_list u).
Proof.
  induction u; cbn [JS.uint_digits DecimalFacts.to_list map];
    [reflexivity | ..]; rewrite IHu; reflexivity.
Qed.

Lemma of_lu_list (u : Decimal.uint) :
  Z.of_N (DecimalPos.Unsigned.of_lu u)
  = fold_right (fun d a => 10 * a + digit_value d) 0 (DecimalFacts.to_list u).
Proof.
  induction u;
    cbn [DecimalFacts.to_list fold_right DecimalPos.Unsigned.of_lu digit_value];
    try reflexivity; rewrite <- IHu; lia.
Qed.

Lemma of_uint_list (u : Decimal.uint) :
  Z.of_N (Pos.of_uint u) = numeral_value (DecimalFacts.to_list u).
Proof.
  rewrite DecimalPos.Unsigned.of_uint_alt, of_lu_list, DecimalFacts.rev_spec.
  unfold numeral_value. now rewrite fold_left_rev_right.
Qed.

Lemma numeral_value_snoc (l : list DecimalFacts.digits) (d : DecimalFacts.digits) :
  numeral_value (l ++ [d]) = 10 * numeral_value l + digit_value d.
Proof. unfold numeral_value. now rewrite fold_left_app. Qed.

(** A numeral without a leading zero is the numeral of its value. *)
Lemma to_uint_unique (l : list DecimalFacts.digits) (p : positive) :
  DecimalFacts.lnzhead l = l -> l <> [] -> numeral_value l = Z.pos p ->
  DecimalFacts.to_list (Pos.to_uint p) = l.
Proof.
  intros Hn Hl Hv.
  pose proof (DecimalPos.Unsigned.to_of (DecimalFacts.of_list l)) as H.
  assert (E : Pos.of_uint (DecimalFacts.of_list l) = N.pos p).
  { apply N2Z.inj. now rewrite of_uint_list, DecimalFacts.to_list_of_list. }
  rewrite E in H. cbn [N.to_uint] in H. rewrite H, DecimalFacts.unorm_spec.
  rewrite DecimalFacts.to_list_of_list. unfold DecimalFacts.lunorm. rewrite Hn.
  destruct l; congruence.
Qed.

Lemma to_uint_normal (p : positive) :
  DecimalFacts.lnzhead (DecimalFacts.to_list (Pos.to_uint p))
  = DecimalFacts.to_list (Pos.to_uint p)
  /\ DecimalFacts.to_list (Pos.to_uint p) <> [].
Proof.
  pose proof (DecimalPos.Unsigned.to_of (Pos.to_uint p)) as H.
  rewrite DecimalPos.Unsigned.of_to in H. cbn [N.to_uint] in H.
  apply (f_equal DecimalFacts.to_list) in H.
  rewrite DecimalFacts.unorm_spec in H.
  pose proof (DecimalPos.Unsigned.to_uint_nonzero p) as Hz.
  pose proof (DecimalPos.Unsigned.to_uint_nonnil p) as Hn.
  assert (Hl : DecimalFacts.to_list (Pos.to_uint p) <> []).
  { intros E. apply Hn. apply DecimalFacts.to_list_inj. now rewrite E. }
  split; [ | exact Hl].
  unfold DecimalFacts.lunorm in H.
  destruct (DecimalFacts.lnzhead (DecimalFacts.to_list (Pos.to_uint p)))
    eqn:E; [ | congruence].
  exfalso. apply Hz. apply DecimalFacts.to_list_inj. rewrite H. reflexivity.
Qed.

Lemma to_uint_value (p : positive) :
  numeral_value (DecimalFacts.to_list (Pos.to_uint p)) = Z.pos p.
Proof.
  rewrite <- of_uint_list, DecimalPos.Unsigned.of_to. reflexivity.
Qed.

Lemma digit_value_of (r : Z) : 0 <= r < 10 -> digit_value (digit_of r) = r.
Proof.
  intros H.
  assert (C : r = 0 \/ r = 1 \/ r = 2 \/ r = 3 \/ r = 4 \/ r = 5 \/ r = 6
              \/ r = 7 \/ r = 8 \/ r = 9) by lia.
  repeat destruct C as [-> | C]; try reflexivity. now subst.
Qed.

Lemma lnzhead_app (l l' : list DecimalFacts.digits) :
  DecimalFacts.lnzhead l = l -> l <> [] ->
  DecimalFacts.lnzhead (l ++ l') = l ++ l'.
Proof.
  destruct l as [ | h t]; [congruence | ]. intros H _.
  destruct h; try reflexivity.
  exfalso. exact (DecimalFacts.lnzhead_neq_d0_head _ _ H).
Qed.

Lemma to_uint_step (p : positive) :
  10 <= Z.pos p ->
  DecimalFacts.to_list (Pos.to_uint p)
  = DecimalFacts.to_list (Pos.to_uint (Z.to_pos (Z.pos p / 10)))
    ++ [digit_of (Z.pos p mod 10)].
Proof.
  intros H.
  assert (Hq : 0 < Z.pos p / 10) by (apply Z.div_str_pos; lia).
  pose proof (Z.mod_pos_bound (Z.pos p) 10 ltac:(lia)) as Hr.
  destruct (to_uint_normal (Z.to_pos (Z.pos p / 10))) as [N1 N2].
  apply to_uint_unique.
  - now apply lnzhead_app.
  - intros E. apply app_eq_nil in E. destruct E as [_ E]. discriminate.
  - rewrite numeral_value_snoc, to_uint_value, digit_value_of, Z2Pos.id by lia.
    pose proof (Z.div_mod (Z.pos p) 10 ltac:(lia)). lia.
Qed.

(** The decimal numeral of a number from 10 on is that of its tenth,
    followed by its last digit. *)
Lemma digits_of_step (z : Z) :
  10 <= z -> JS.digits_of z = JS.digits_of (z / 10) ++ JS.digits_of (z mod 10).
Proof.
  intros H.
  assert (Hq : 0 < z / 10) by (apply Z.div_str_pos; lia).
  pose proof (Z.mod_pos_bound z 10 ltac:(lia)) as Hr.
  destruct z as [ | p | p]; try lia.
  unfold JS.digits_of at 1. rewrite uint_digits_list, to_uint_step by lia.
  rewrite map_app. f_equal.
  - destruct (Z.pos p / 10) as [ | q | q] eqn:E; try lia.
    cbn [JS.digits_of Z.to_pos]. now rewrite uint_digits_list.
  - assert (C : Z.pos p mod 10 = 0 \/ Z.pos p mod 10 = 1 \/ Z.pos p mod 10 = 2
                \/ Z.pos p mod 10 = 3 \/ Z.pos p mod 10 = 4
                \/ Z.pos p mod 10 = 5 \/ Z.pos p mod 10 = 6
                \/ Z.pos p mod 10 = 7 \/ Z.pos p mod 10 = 8
                \/ Z.pos p mod 10 = 9) by lia.
    repeat destruct C as [-> | C]; try reflexivity. rewrite C. reflexivity.
Qed.

Lemma digits_of_digit (z : Z) :
  0 <= z < 10 -> JS.digits_of z = [Z.to_N (48 + z)].
Proof.
  intros H.
  assert (C : z = 0 \/ z = 1 \/ z = 2 \/ z = 3 \/ z = 4 \/ z = 5 \/ z = 6
              \/ z = 7 \/ z = 8 \/ z = 9) by lia.
  repeat destruct C as [-> | C]; try reflexivity. now subst.
Qed.

Lemma digits_ind (P : Z -> Prop) :
  (forall z, 0 <= z < 10 -> P z) ->
  (forall z, 10 <= z -> P (z / 10) -> P z) ->
  forall z, 0 <= z -> P z.
Proof.
  intros H0 H1 z Hz.
  assert (G : forall x, 0 <= x -> 0 <= x -> P x); [ | now apply G].
  intros x Hx. pattern x. apply Z_lt_induction; [ | exact Hx].
  intros n IH Hn.
  destruct (Z_lt_ge_dec n 10) as [Hlt | Hge].
  - apply H0. lia.
  - apply H1; [lia | ].
    assert (0 <= n / 10 < n)
      by (split; [apply Z.div_pos; lia | apply Z.div_lt; lia]).
    apply IH; lia.
Qed.

Lemma digits_of_all (z : Z) :
  0 <= z -> forallb JS.is_digit (JS.digits_of z) = true.
Proof.
  intros Hz. pattern z. apply digits_ind; [ | | exact Hz]; clear z Hz.
  - intros z H. rewrite digits_of_digit by trivial.
    assert (C : z = 0 \/ z = 1 \/ z = 2 \/ z = 3 \/ z = 4 \/ z = 5 \/ z = 6
                \/ z = 7 \/ z = 8 \/ z = 9) by lia.
    repeat destruct C as [-> | C]; try reflexivity. now subst.
  - intros z H IH. rewrite digits_of_step, forallb_app, IH by trivial.
    pose proof (Z.mod_pos_bound z 10 ltac:(lia)) as Hr.
    rewrite digits_of_digit by trivial.
    assert (C : z mod 10 = 0 \/ z mod 10 = 1 \/ z mod 10 = 2 \/ z mod 10 = 3
                \/ z mod 10 = 4 \/ z mod 10 = 5 \/ z mod 10 = 6
                \/ z mod 10 = 7 \/ z mod 10 = 8 \/ z mod 10 = 9) by lia.
    repeat destruct C as [-> | C]; try reflexivity. now rewrite C.
Qed.

Lemma digits_value_app (a b : JS.jsstring) :
  JS.digits_value (a ++ b)
  = fold_left (fun a d => 10 * a + (Z.of_N d - 48)) b (JS.digits_value a).
Proof. unfold JS.digits_value. now rewrite fold_left_app. Qed.

Lemma digits_value_of (z : Z) : 0 <= z -> JS.digits_value (JS.digits_of z) = z.
Proof.
  intros Hz. pattern z. apply digits_ind; [ | | exact Hz]; clear z Hz.
  - intros z H. rewrite digits_of_digit by trivial.
    unfold JS.digits_value. cbn [fold_left]. rewrite Z2N.id by lia. lia.
  - intros z H IH. rewrite digits_of_step, digits_value_app, IH by trivial.
    pose proof (Z.mod_pos_bound z 10 ltac:(lia)) as Hr.
    rewrite digits_of_digit by trivial. cbn [fold_left].
    rewrite Z2N.id by lia.
    pose proof (Z.div_mod z 10 ltac:(lia)). lia.
Qed.

(** A numeral of [L] digits lies between 10^(L-1) and 10^L. *)
Lemma digits_of_length (z : Z) :
  1 <= z ->
  let L := Z.of_nat (List.length (JS.digits_of z)) in
  1 <= L /\ 10 ^ (L - 1) <= z < 10 ^ L.
Proof.
  intros Hz.
  assert (G : 1 <= z ->
              1 <= Z.of_nat (List.length (JS.digits_of z))
              /\ 10 ^ (Z.of_nat (List.length (JS.digits_of z)) - 1) <= z
                 < 10 ^ Z.of_nat (List.length (JS.digits_of z)));
    [ | apply G; lia].
  pattern z. apply digits_ind; [ | | lia]; clear z Hz.
  - intros z H H1. rewrite digits_of_digit by trivial. cbn. lia.
  - intros z H IH _.
    assert (Hq : 1 <= z / 10).
    { assert (0 < z / 10) by (apply Z.div_str_pos; lia). lia. }
    destruct (IH Hq) as (L1 & L2 & L3).
    pose proof (Z.mod_pos_bound z 10 ltac:(lia)) as Hr.
    rewrite digits_of_step, length_app by trivial.
    rewrite (digits_of_digit (z mod 10)) by trivial. cbn [List.length].
    set (L := Z.of_nat (List.length (JS.digits_of (z / 10)))) in *.
    replace (Z.of_nat (List.length (JS.digits_of (z / 10)) + 1)) with (L + 1)
      by lia.
    replace (L + 1 - 1) with (L - 1 + 1) by lia.
    rewrite !Z.pow_add_r by lia. rewrite Z.pow_1_r.
    pose proof (Z.div_mod z 10 ltac:(lia)). lia.
Qed.

(** Multiplying by 10 appends a zero. *)
Lemma digits_of_pow10 (s j : Z) :
  1 <= s -> 0 <= j -> JS.digits_of (s * 10 ^ j) = JS.digits_of s ++ JS.zeros j.
Proof.
  intros Hs Hj. pattern j. apply natlike_ind; [ | | exact Hj]; clear j Hj.
  - rewrite Z.mul_1_r. cbn. now rewrite List.app_nil_r.
  - intros j Hj IH. unfold Z.succ.
    rewrite Z.pow_add_r, Z.pow_1_r by lia.
    assert (Hp : 0 < 10 ^ j) by (apply Z.pow_pos_nonneg; lia).
    rewrite digits_of_step by nia.
    replace (s * (10 ^ j * 10)) with (s * 10 ^ j * 10) by lia.
    rewrite Z.div_mul, Z.mod_mul, IH by lia.
    unfold JS.zeros. rewrite Z2Nat.inj_add by lia.
    rewrite repeat_app, List.app_assoc. reflexivity.
Qed.

Lemma take_digits_all (s : JS.jsstring) :
  forallb JS.is_digit s = true -> JS.take_digits s = (s, []).
Proof.
  induction s as [ | c r IH]; [reflexivity | ].
  cbn [forallb JS.take_digits]. intros H.
  apply andb_prop in H as [Hc Hr]. now rewrite Hc, (IH Hr).
Qed.

Lemma digits_of_head (z : Z) :
  0 <= z -> exists c r, JS.digits_of z = c :: r /\ JS.is_digit c = true.
Proof.
  intros Hz. pose proof (digits_of_all z Hz) as H.
  destruct (JS.digits_of z) as [ | c r] eqn:E.
  - exfalso. destruct z as [ | p | p]; try lia; try discriminate.
    cbn in E. rewrite uint_digits_list in E.
    destruct (to_uint_normal p) as [_ Hn].
    destruct (DecimalFacts.to_list (Pos.to_uint p)); [congruence | discriminate].
  - cbn [forallb] in H. apply andb_prop in H as [Hc _]. eauto.
Qed.

Ltac digit_cases c Hc :=
  unfold JS.is_digit in Hc; apply andb_prop in Hc as [?Hlo ?Hhi];
  apply N.leb_le in Hlo, Hhi.

Lemma digit_codes (c : N) :
  JS.is_digit c = true ->
  (c = 48 \/ c = 49 \/ c = 50 \/ c = 51 \/ c = 52 \/ c = 53 \/ c = 54
   \/ c = 55 \/ c = 56 \/ c = 57)%N.
Proof. intros Hc. digit_cases c Hc. lia. Qed.

(** [parseFloat] reads the decimal numeral of an integer as that integer. *)
Lemma parseFloat_digits_of (z : Z) :
  0 <= z -> JS.parseFloat (JS.digits_of z) = JS.ofZ z.
Proof.
  intros Hz.
  destruct (digits_of_head z Hz) as (c & r & E & Hc).
  pose proof (digits_of_all z Hz) as Hall.
  pose proof (digits_value_of z Hz) as Hval.
  rewrite E in *.
  assert (G : JS.parseFloat (c :: r)
              = JS.ofDecimal false (JS.digits_value (c :: r)) 0).
  { unfold JS.parseFloat, JS.unsigned_literal.
    pose proof (digit_codes c Hc) as C.
    repeat destruct C as [C | C]; subst c;
      cbn [JS.trimStart JS.is_ws existsb N.eqb Pos.eqb orb andb N.leb
           N.compare Pos.compare Pos.compare_cont];
      cbv beta iota zeta;
      (replace (JS.starts_with (JS.str "Infinity") _) with false
         by reflexivity);
      rewrite (take_digits_all _ Hall), List.app_nil_r; reflexivity. }
  rewrite G, Hval.
  unfold JS.ofDecimal. destruct z as [ | p | p]; [reflexivity | | lia].
  cbn [Z.leb Z.compare cond_Zopp]. rewrite Z.pow_0_r, Z.mul_1_r. reflexivity.
Qed.

(** ** [Number.prototype.toString] on integers *)

Ltac pow_lia :=
  change (2 ^ 53) with 9007199254740992 in *;
  change (10 ^ 15) with 1000000000000000 in *;
  lia.

Lemma same_number_ofZ (a b : Z) :
  0 < a < 2 ^ 53 -> 0 < b < 2 ^ 53 ->
  JS.same_number (JS.ofZ a) (JS.ofZ b) = (a =? b).
Proof.
  intros Ha Hb.
  destruct a as [ | pa | pa], b as [ | pb | pb]; try lia.
  rewrite !ofZ_pos by lia. unfold canon, JS.same_number.
  destruct (Z.eqb_spec (Z.pos pa) (Z.pos pb)) as [E | E].
  - injection E as ->. now rewrite Pos.eqb_refl, Z.eqb_refl.
  - destruct (Pos.eqb_spec (mant pa) (mant pb)) as [Em | Em];
      [ | reflexivity].
    destruct (Z.eqb_spec (Z.pos (digits2_pos pa) - 53)
                (Z.pos (digits2_pos pb) - 53)) as [Ed | Ed];
      [ | reflexivity].
    exfalso. apply E.
    assert (H1 := mant_spec pa ltac:(lia)).
    assert (H2 := mant_spec pb ltac:(lia)).
    rewrite Em in H1. rewrite H1 in H2.
    replace (Z.pos (digits2_pos pb)) with (Z.pos (digits2_pos pa)) in H2
      by lia.
    pose proof (digits_le_53 pa ltac:(lia)).
    assert (0 < 2 ^ (53 - Z.pos (digits2_pos pa)))
      by (apply Z.pow_pos_nonneg; lia).
    nia.
Qed.

Lemma ofScaled_int (s j : Z) :
  1 <= s -> 0 <= j -> JS.ofScaled s j = JS.ofZ (s * 10 ^ j).
Proof.
  intros Hs Hj. unfold JS.ofScaled, JS.ofDecimal.
  destruct s as [ | p | p]; try lia.
  replace (0 <=? j) with true by (symmetry; apply Z.leb_le; lia).
  reflexivity.
Qed.

Lemma ratio_of_canon (p : positive) :
  Z.pos p < 2 ^ 53 ->
  exists Q, 0 < Q
    /\ JS.ratio_of (mant p) (Z.pos (digits2_pos p) - 53) = (Z.pos p * Q, Q).
Proof.
  intros Hp. pose proof (digits_le_53 p Hp) as Hd.
  pose proof (mant_spec p Hp) as Hm. unfold JS.ratio_of.
  destruct (Z.leb_spec 0 (Z.pos (digits2_pos p) - 53)) as [H | H].
  - exists 1. split; [lia | ].
    replace (Z.pos (digits2_pos p) - 53) with 0 by lia.
    replace (53 - Z.pos (digits2_pos p)) with 0 in Hm by lia.
    rewrite Hm, Z.pow_0_r. f_equal. lia.
  - exists (2 ^ (53 - Z.pos (digits2_pos p))).
    split; [apply Z.pow_pos_nonneg; lia | ].
    rewrite Hm. f_equal. f_equal. lia.
Qed.

(** A numeral of [L] digits, for a number below 10^15. *)
Lemma numeral_length_bounds (p : positive) :
  Z.pos p < 10 ^ 15 ->
  let L := numeral_length (Z.pos p) in
  (1 <= L <= 15) /\ 10 ^ (L - 1) <= Z.pos p < 10 ^ L.
Proof.
  intros Hp. cbv zeta.
  destruct (digits_of_length (Z.pos p) ltac:(lia)) as (H1 & H2 & H3).
  fold (numeral_length (Z.pos p)) in H1, H2, H3.
  set (L := numeral_length (Z.pos p)) in *.
  split; [ | lia]. split; [lia | ].
  assert (L - 1 < 15); [ | lia].
  apply (Z.pow_lt_mono_r_iff 10); lia.
Qed.

(** The digit strings of [k] digits that read back as the integer: there is
    one exactly when the last [L - k] digits of the numeral are zeros. *)
Lemma digits_at_int (p : positive) (Q k : Z) :
  Z.pos p < 10 ^ 15 ->
  let L := numeral_length (Z.pos p) in
  0 < Q -> 1 <= k <= L ->
  JS.digits_at (JS.ofZ (Z.pos p)) (Z.pos p * Q) Q L k
  = if Z.pos p mod 10 ^ (L - k) =? 0
    then Some (L, Z.pos p / 10 ^ (L - k)) else None.
Proof.
  intros Hp L HQ Hk.
  destruct (numeral_length_bounds p Hp) as ((L1 & L2) & L3 & L4).
  fold L in L1, L2, L3, L4.
  set (j := L - k). assert (Hj : 0 <= j) by (unfold j; lia).
  assert (P10 : 0 < 10 ^ j) by (apply Z.pow_pos_nonneg; lia).
  assert (PL : 10 ^ L <= 10 ^ 15) by (apply Z.pow_le_mono_r; lia).
  assert (Pj : 10 ^ j <= Z.pos p).
  { eapply Z.le_trans; [ | exact L3]. apply Z.pow_le_mono_r; unfold j; lia. }
  assert (Ek : 10 ^ L = 10 ^ k * 10 ^ j).
  { rewrite <- Z.pow_add_r by lia. f_equal. unfold j. lia. }
  assert (Ek1 : 10 ^ (L - 1) = 10 ^ (k - 1) * 10 ^ j).
  { rewrite <- Z.pow_add_r by lia. f_equal. unfold j. lia. }
  set (lo := Z.pos p / 10 ^ j).
  assert (Hlo1 : 10 ^ (k - 1) <= lo).
  { unfold lo. rewrite <- (Z.div_mul (10 ^ (k - 1)) (10 ^ j)) by lia.
    apply Z.div_le_mono; lia. }
  assert (Hlo2 : lo < 10 ^ k).
  { unfold lo. apply Z.div_lt_upper_bound; lia. }
  assert (Pk1 : 0 < 10 ^ (k - 1)) by (apply Z.pow_pos_nonneg; lia).
  assert (Hlo3 : lo * 10 ^ j <= Z.pos p < (lo + 1) * 10 ^ j).
  { unfold lo. pose proof (Z.mul_div_le (Z.pos p) (10 ^ j) P10).
    pose proof (Z.mul_succ_div_gt (Z.pos p) (10 ^ j) P10). lia. }
  unfold JS.digits_at, JS.scale10.
  replace (0 <=? L - k) with true by (symmetry; apply Z.leb_le; lia).
  fold j.
  replace (Z.pos p * Q / (Q * 10 ^ j)) with lo
    by (unfold lo; rewrite (Z.mul_comm (Z.pos p) Q);
        now rewrite Z.div_mul_cancel_l by lia).
  cbv zeta.
  rewrite !ofScaled_int by lia.
  replace (L - k) with j by reflexivity.
  replace (10 ^ (k - 1) * 10 ^ (L + 1 - k)) with (10 ^ L)
    by (rewrite <- Z.pow_add_r by lia; f_equal; lia).
  rewrite !same_number_ofZ by pow_lia.
  replace ((lo + 1) * 10 ^ j =? Z.pos p) with false
    by (symmetry; apply Z.eqb_neq; lia).
  replace (10 ^ L =? Z.pos p) with false
    by (symmetry; apply Z.eqb_neq; lia).
  rewrite !andb_false_r.
  replace (10 ^ (k - 1) <=? lo) with true by (symmetry; apply Z.leb_le; lia).
  replace (lo <? 10 ^ k) with true by (symmetry; apply Z.ltb_lt; lia).
  cbn [andb].
  destruct (Z.eqb_spec (lo * 10 ^ j) (Z.pos p)) as [E | E].
  - replace (Z.pos p mod 10 ^ j =? 0) with true; [reflexivity | ].
    symmetry. apply Z.eqb_eq. rewrite <- E. apply Z.mod_mul. lia.
  - replace (Z.pos p mod 10 ^ j =? 0) with false; [reflexivity | ].
    symmetry. apply Z.eqb_neq. intros M. apply E.
    pose proof (Z.div_mod (Z.pos p) (10 ^ j) ltac:(lia)). unfold lo. lia.
Qed.

(** The search for the shortest digit string ends, within its fuel, on the
    numeral without its trailing zeros. *)
Lemma shortest_from_int (p : positive) (Q : Z) (fuel : nat) :
  Z.pos p < 10 ^ 15 ->
  let L := numeral_length (Z.pos p) in
  forall k,
  0 < Q -> 1 <= k <= L -> L - k < Z.of_nat fuel ->
  exists k', k <= k' <= L
    /\ Z.pos p mod 10 ^ (L - k') = 0
    /\ JS.shortest_from (JS.ofZ (Z.pos p)) (Z.pos p * Q) Q L k fuel
       = (L, k', Z.pos p / 10 ^ (L - k')).
Proof.
  intros Hp L.
  induction fuel as [ | fuel IH]; intros k HQ Hk Hf; [lia | ].
  cbn [JS.shortest_from]. unfold L. rewrite digits_at_int by trivial.
  fold L.
  destruct (Z.eqb_spec (Z.pos p mod 10 ^ (L - k)) 0) as [E | E].
  - exists k. repeat split; trivial; lia.
  - assert (k < L).
    { destruct (Z.eq_dec k L) as [-> | ]; [ | lia].
      exfalso. apply E. rewrite Z.sub_diag. apply Z.mod_1_r. }
    destruct (IH (k + 1) HQ ltac:(lia) ltac:(lia)) as (k' & K1 & K2 & K3).
    exists k'. repeat split; trivial; lia.
Qed.

Lemma positive_toString_int (p : positive) :
  Z.pos p < 10 ^ 15 ->
  JS.positive_toString (mant p) (Z.pos (digits2_pos p) - 53)
  = JS.digits_of (Z.pos p).
Proof.
  intros Hp.
  destruct (numeral_length_bounds p Hp) as ((L1 & L2) & L3 & L4).
  set (L := numeral_length (Z.pos p)) in *.
  assert (Hp53 : Z.pos p < 2 ^ 53) by pow_lia.
  destruct (ratio_of_canon p Hp53) as (Q & HQ & ER).
  unfold JS.positive_toString. rewrite ER.
  assert (EM : JS.magnitude10 (Z.pos p * Q) Q = L).
  { unfold JS.magnitude10.
    replace (Q <=? Z.pos p * Q) with true by (symmetry; apply Z.leb_le; nia).
    now rewrite Z.div_mul by lia. }
  rewrite EM.
  change (S754_finite false (mant p) (Z.pos (digits2_pos p) - 53))
    with (canon false p).
  rewrite <- (ofZ_pos p Hp53).
  destruct (shortest_from_int p Q 17 Hp 1 HQ ltac:(fold L; lia)
              ltac:(fold L; lia)) as (k' & K1 & K2 & K3).
  fold L in K1, K2, K3. rewrite K3.
  replace ((k' <=? L) && (L <=? 21)) with true
    by (symmetry; apply andb_true_intro; split; apply Z.leb_le; lia).
  assert (P10 : 0 < 10 ^ (L - k')) by (apply Z.pow_pos_nonneg; lia).
  rewrite <- digits_of_pow10.
  - f_equal. pose proof (Z.div_mod (Z.pos p) (10 ^ (L - k')) ltac:(lia)). lia.
  - assert (0 < Z.pos p / 10 ^ (L - k')); [ | lia].
    apply Z.div_str_pos. split; [lia | ].
    eapply Z.le_trans; [ | exact L3]. apply Z.pow_le_mono_r; lia.
  - lia.
Qed.

(** The text of an integer from 0 up to 10^15 is its decimal numeral. *)
Lemma toString_int (z : Z) :
  0 <= z < 10 ^ 15 -> JS.Number_toString (JS.ofZ z) = JS.digits_of z.
Proof.
  intros Hz. destruct z as [ | p | p]; [reflexivity | | lia].
  rewrite ofZ_pos by pow_lia. unfold canon. cbn [JS.Number_toString].
  apply positive_toString_int. lia.
Qed.

(** ** Products and quotients by an integer, up to rounding *)

Lemma inject_Z_pos (z : Z) : 0 < z -> (0 < inject_Z z)%Q.
Proof. intros H. unfold Qlt. cbn. lia. Qed.

Lemma value_nonneg (E : Z) (x : JS.number) : nonneg E x -> (0 <= value x)%Q.
Proof.
  intros [-> | (m & e & -> & _)]; cbn [value cond_Zopp]; [lra | ].
  pose proof (Q2_pow_pos e).
  assert (0 < inject_Z (Z.pos m))%Q by (apply inject_Z_pos; lia).
  nra.
Qed.

Lemma value_ofZ (z : Z) : 0 <= z < 2 ^ 53 -> (value (JS.ofZ z) == inject_Z z)%Q.
Proof.
  intros Hz. destruct z as [ | p | p]; [reflexivity | | lia].
  rewrite ofZ_pos by lia. unfold canon. cbn [value cond_Zopp].
  pose proof (digits_le_53 p ltac:(lia)) as Hd.
  rewrite mant_spec by lia. rewrite inject_Z_mult, Q2_pow_Z by lia.
  rewrite <- Qmult_assoc, <- Q2_pow_add.
  replace (53 - Z.pos (digits2_pos p) + (Z.pos (digits2_pos p) - 53)) with 0
    by lia.
  change (2 ^ 0)%Q with 1%Q. lra.
Qed.

Lemma ofZ_nonneg (z : Z) : 0 <= z < 2 ^ 53 -> nonneg 0 (JS.ofZ z).
Proof.
  intros Hz. destruct z as [ | p | p]; [now left | | lia].
  right. rewrite ofZ_pos by lia. unfold canon.
  pose proof (digits_le_53 p ltac:(lia)).
  eexists; eexists; split; [reflexivity | lia].
Qed.

(** The digits of a mantissa from a bound on the value. *)
Lemma exponent_bound (m e B : Z) :
  0 < m -> (inject_Z m * 2 ^ e < 2 ^ B)%Q -> Zdigits2 m + e <= B.
Proof.
  intros Hm H. destruct m as [ | p | p]; try lia.
  cbn [Zdigits2]. rewrite digits2_log2.
  pose proof (Z.log2_spec (Z.pos p) ltac:(lia)) as [H1 _].
  pose proof (Z.log2_nonneg (Z.pos p)) as H0.
  rewrite Zle_Qle, Q2_pow_Z in H1 by trivial.
  pose proof (Q2_pow_pos e) as He.
  assert (H2 : (2 ^ (Z.log2 (Z.pos p) + e) < 2 ^ B)%Q).
  { rewrite Q2_pow_add.
    eapply Qle_lt_trans; [ | exact H].
    apply Qmult_le_compat_r; [exact H1 | lra]. }
  apply Qpower_lt_compat_l_inv in H2; [lia | ].
  unfold Qlt. cbn. lia.
Qed.

Lemma fexp_bound (d B : Z) :
  d <= B -> fexp JS.prec JS.emax d <= Z.max (B - 53) (-1074).
Proof. unfold fexp, emin, JS.prec, JS.emax. lia. Qed.

(** The product of a number and an integer. *)
Lemma mul_crude (x : JS.number) (Y B E Ex : Z) :
  nonneg Ex x -> 0 < Y < 2 ^ 53 ->
  (value x * inject_Z Y < 2 ^ B)%Q ->
  Ex <= E -> B - 53 <= E -> -1074 <= E -> E + 1 <= 971 ->
  let r := JS.mul x (JS.ofZ Y) in
  nonneg (E + 1) r
  /\ (value x * inject_Z Y - 3 * 2 ^ E <= value r
      /\ value r <= value x * inject_Z Y + 2 ^ E)%Q.
Proof.
  intros Hx HY HB HEx HEB HEm HEM r.
  pose proof (Q2_pow_pos E) as PE.
  destruct Hx as [-> | (mx & ex & -> & Hex)].
  - destruct Y as [ | py | py]; try lia.
    subst r. rewrite ofZ_pos by lia. unfold canon. cbn.
    split; [now left | ]. split; lra.
  - destruct Y as [ | py | py]; try lia.
    pose proof (value_ofZ (Z.pos py) ltac:(lia)) as VY.
    pose proof (digits_le_53 py ltac:(lia)) as Hd.
    subst r. rewrite ofZ_pos in * by lia. unfold canon in *.
    unfold JS.mul. cbn [SFmul xorb]. cbn [value cond_Zopp] in *.
    set (my := mant py) in *. set (ey := Z.pos (digits2_pos py) - 53) in *.
    assert (HX : (inject_Z (Z.pos (mx * my)) * 2 ^ (ex + ey)
                  == inject_Z (Z.pos mx) * 2 ^ ex * inject_Z (Z.pos py))%Q).
    { rewrite <- VY, Pos2Z.inj_mul, inject_Z_mult, Q2_pow_add. ring. }
    assert (He1 : Z.max (ex + ey)
                    (fexp JS.prec JS.emax (Zdigits2 (Z.pos (mx * my)) + (ex + ey)))
                  <= E).
    { apply Z.max_lub; [lia | ].
      eapply Z.le_trans; [apply (fexp_bound _ B) | lia].
      apply exponent_bound; [lia | ]. now rewrite HX. }
    destruct (round_aux_crude (Z.pos (mx * my)) (ex + ey) loc_Exact
                ltac:(lia) ltac:(lia)) as (S1 & S2 & S3).
    set (e1 := Z.max (ex + ey) _) in *.
    pose proof (Q2_pow_le e1 E He1) as PL.
    pose proof (Q2_pow_pos e1) as P1.
    rewrite HX in S2, S3.
    split.
    + destruct S1 as [-> | (m & e & -> & Hme)]; [now left | ].
      right. exists m, e. split; [reflexivity | lia].
    + split; lra.
Qed.

(** The quotient of a number by an integer. *)
Lemma div_crude (x : JS.number) (Y B E Ex : Z) :
  nonneg Ex x -> 0 < Y < 2 ^ 53 ->
  (value x < 2 ^ B * inject_Z Y)%Q ->
  B - 53 <= E -> -1074 <= E -> E + 1 <= 971 ->
  let r := JS.div x (JS.ofZ Y) in
  nonneg (E + 1) r
  /\ (value x - 4 * 2 ^ E * inject_Z Y <= value r * inject_Z Y
      /\ value r * inject_Z Y <= value x + 2 ^ E * inject_Z Y)%Q.
Proof.
  intros Hx HY HB HEB HEm HEM r.
  pose proof (Q2_pow_pos E) as PE.
  assert (PY : (0 < inject_Z Y)%Q) by (apply inject_Z_pos; lia).
  destruct Y as [ | py | py]; try lia.
  pose proof (value_ofZ (Z.pos py) ltac:(lia)) as VY.
  pose proof (digits_le_53 py ltac:(lia)) as Hd.
  pose proof (mant_digits py ltac:(lia)) as Hmd.
  subst r. rewrite ofZ_pos in * by lia. unfold canon in *.
  destruct Hx as [-> | (mx & ex & -> & Hex)].
  - cbn. split; [now left | ]. split; nra.
  - unfold JS.div. cbn [SFdiv xorb]. cbn [value cond_Zopp] in *.
    set (my := mant py) in *. set (ey := Z.pos (digits2_pos py) - 53) in *.
    unfold SFdiv_core_binary. cbn [Zdigits2]. rewrite Hmd.
    set (d1 := Z.pos (digits2_pos mx)).
    set (e' := Z.min (fexp JS.prec JS.emax (d1 + ex - (53 + ey))) (ex - ey)).
    set (s := ex - ey - e').
    assert (Hs : 0 <= s) by (unfold s, e'; lia).
    set (m' := match s with
               | 0 => Z.pos mx
               | Z.pos _ => Z.shiftl (Z.pos mx) s
               | Z.neg _ => 0
               end).
    assert (Em : m' = Z.pos mx * 2 ^ s).
    { unfold m'. destruct s as [ | ps | ps]; [cbn; lia | | lia].
      apply Z.shiftl_mul_pow2. lia. }
    assert (Pm : 0 < m').
    { rewrite Em. apply Z.mul_pos_pos; [lia | apply Z.pow_pos_nonneg; lia]. }
    pose proof (Z_div_mod m' (Z.pos my) ltac:(lia)) as DM.
    destruct (Z.div_eucl m' (Z.pos my)) as [q rem].
    destruct DM as [DM1 DM2].
    assert (Hq : 0 <= q) by nia.
    (* the quotient, scaled, brackets the exact ratio *)
    pose proof (Q2_pow_pos ey) as Pey. pose proof (Q2_pow_pos e') as Pe'.
    pose proof (Q2_pow_pos ex) as Pex.
    assert (EX : (inject_Z (Z.pos mx) * 2 ^ ex
                  == inject_Z m' * (2 ^ ey * 2 ^ e'))%Q).
    { rewrite Em, inject_Z_mult, Q2_pow_Z by trivial.
      rewrite <- !Q2_pow_add, <- Qmult_assoc, <- Q2_pow_add.
      replace (s + (ey + e')) with ex by (unfold s; lia). reflexivity. }
    assert (Q1 : (inject_Z q * 2 ^ e' * inject_Z (Z.pos py)
                  <= inject_Z (Z.pos mx) * 2 ^ ex)%Q).
    { rewrite EX, <- VY.
      assert (H : (inject_Z (Z.pos my) * inject_Z q <= inject_Z m')%Q)
        by (rewrite <- inject_Z_mult, <- Zle_Qle; lia).
      setoid_replace (inject_Z q * 2 ^ e' * (inject_Z (Z.pos my) * 2 ^ ey))%Q
        with (inject_Z (Z.pos my) * inject_Z q * (2 ^ ey * 2 ^ e'))%Q by ring.
      apply Qmult_le_compat_r; [exact H | nra]. }
    assert (Q2 : (inject_Z (Z.pos mx) * 2 ^ ex
                  < (inject_Z q + 1) * 2 ^ e' * inject_Z (Z.pos py))%Q).
    { rewrite EX, <- VY.
      assert (H : (inject_Z m' < inject_Z (Z.pos my) * (inject_Z q + 1))%Q).
      { change 1%Q with (inject_Z 1).
        rewrite <- inject_Z_plus, <- inject_Z_mult, <- Zlt_Qlt. lia. }
      setoid_replace ((inject_Z q + 1) * 2 ^ e'
                      * (inject_Z (Z.pos my) * 2 ^ ey))%Q
        with (inject_Z (Z.pos my) * (inject_Z q + 1) * (2 ^ ey * 2 ^ e'))%Q
        by ring.
      apply Qmult_lt_compat_r; [nra | exact H]. }
    (* the exponents *)
    assert (Hd1 : d1 + ex - (53 + ey) <= B).
    { assert (H1 : Zdigits2 (Z.pos mx) + (ex - (53 + ey)) <= B);
        [ | cbn [Zdigits2] in H1; fold d1 in H1; lia].
      apply exponent_bound; [lia | ].
      assert (H53 : (inject_Z (Z.pos py) < 2 ^ (53 + ey))%Q).
      { rewrite <- VY, Q2_pow_add.
        pose proof (Zdigits2_bound (Z.pos my) ltac:(lia)) as [Hb _].
        cbn [Zdigits2] in Hb. rewrite Hmd in Hb.
        rewrite Zlt_Qlt, Q2_pow_Z in Hb by lia.
        apply Qmult_lt_compat_r; trivial. }
      replace (ex - (53 + ey)) with (ex + - (53 + ey)) by lia.
      rewrite Q2_pow_add, Qpower_opp.
      pose proof (Q2_pow_pos (53 + ey)) as P53. pose proof (Q2_pow_pos B) as PB.
      assert (G : (inject_Z (Z.pos mx) * 2 ^ ex < 2 ^ B * 2 ^ (53 + ey))%Q)
        by nra.
      rewrite Qmult_assoc.
      apply Qlt_shift_div_r; [exact P53 | exact G]. }
    assert (He' : e' <= E).
    { unfold e'. pose proof (fexp_bound _ B Hd1). lia. }
    assert (He1 : Z.max e' (fexp JS.prec JS.emax (Zdigits2 q + e')) <= E).
    { apply Z.max_lub; [exact He' | ].
      destruct (Z.eq_dec q 0) as [-> | Hq0].
      - cbn [Zdigits2]. unfold fexp, emin, JS.prec, JS.emax. lia.
      - eapply Z.le_trans; [apply (fexp_bound _ B) | lia].
        apply exponent_bound; [lia | ].
        pose proof (Q2_pow_pos B) as PB.
        assert (G : (inject_Z q * 2 ^ e' * inject_Z (Z.pos py)
                     < 2 ^ B * inject_Z (Z.pos py))%Q) by lra.
        nra. }
    destruct (round_aux_crude q e' (new_location (Z.pos my) rem)
                Hq ltac:(lia)) as (S1 & S2 & S3).
    set (e1 := Z.max e' _) in *.
    pose proof (Q2_pow_le e1 E He1) as PL.
    pose proof (Q2_pow_le e' E He') as PL'.
    pose proof (Q2_pow_pos e1) as P1.
    set (R := binary_round_aux JS.prec JS.emax false q e'
                (new_location (Z.pos my) rem)) in *.
    split.
    + destruct S1 as [-> | (m & e & -> & Hme)]; [now left | ].
      right. exists m, e. split; [reflexivity | lia].
    + assert (T1 : (2 ^ e1 * inject_Z (Z.pos py)
                    <= 2 ^ E * inject_Z (Z.pos py))%Q)
        by (apply Qmult_le_compat_r; lra).
      assert (T2 : (2 ^ e' * inject_Z (Z.pos py)
                    <= 2 ^ E * inject_Z (Z.pos py))%Q)
        by (apply Qmult_le_compat_r; lra).
      assert (T3 : ((inject_Z q * 2 ^ e' - 3 * 2 ^ e1) * inject_Z (Z.pos py)
                    <= value R * inject_Z (Z.pos py))%Q)
        by (apply Qmult_le_compat_r; lra).
      assert (T4 : (value R * inject_Z (Z.pos py)
                    <= (inject_Z q * 2 ^ e' + 2 ^ e1) * inject_Z (Z.pos py))%Q)
        by (apply Qmult_le_compat_r; lra).
      split; lra.
Qed.

Lemma Q2_pow_inv (e : Z) : e <= 0 -> (inject_Z (2 ^ (- e)) * 2 ^ e == 1)%Q.
Proof.
  intros H. rewrite Q2_pow_Z by lia. rewrite <- Q2_pow_add.
  replace (- e + e) with 0 by lia. reflexivity.
Qed.

(** [Math.round] of a number that is not negative: the floor of the value
    plus a half. *)
Lemma Math_round_floor (x : JS.number) (E : Z) :
  nonneg E x -> E < 0 ->
  exists n, 0 <= n
    /\ JS.Math_round x = JS.ofZ n
    /\ (2 * inject_Z n <= 2 * value x + 1
        /\ 2 * value x - 1 < 2 * inject_Z n)%Q.
Proof.
  intros [-> | (m & e & -> & He)] HE.
  - exists 0. split; [lia | split; [reflexivity | ]]. cbn [value].
    change (inject_Z 0) with 0%Q. split; lra.
  - set (K := 2 ^ (- e)).
    assert (PK : 0 < K) by (apply Z.pow_pos_nonneg; lia).
    set (n := (2 * Z.pos m + K) / 2 ^ (1 - e)).
    assert (ED : 2 ^ (1 - e) = 2 * K).
    { unfold K. replace (1 - e) with (1 + - e) by lia.
      rewrite Z.pow_add_r by lia. reflexivity. }
    assert (Hn : 0 <= n) by (apply Z.div_pos; lia).
    exists n. split; [exact Hn | ]. split.
    + unfold JS.Math_round.
      replace (0 <=? e) with false by (symmetry; apply Z.leb_gt; lia).
      cbn [cond_Zopp]. fold K. fold n.
      destruct (Z.eqb_spec n 0) as [-> | ]; reflexivity.
    + assert (F1 : 2 * K * n <= 2 * Z.pos m + K).
      { unfold n. rewrite ED. apply Z.mul_div_le. lia. }
      assert (F2 : 2 * Z.pos m + K < 2 * K * (n + 1)).
      { unfold n. rewrite ED.
        pose proof (Z.mul_succ_div_gt (2 * Z.pos m + K) (2 * K) ltac:(lia)).
        lia. }
      pose proof (Q2_pow_inv e ltac:(lia)) as EQ. fold K in EQ.
      pose proof (Q2_pow_pos e) as Pu.
      to_Q F1. to_Q F2. cbn [value cond_Zopp].
      set (u := (2 ^ e)%Q) in *. set (Kq := inject_Z K) in *.
      set (M := inject_Z (Z.pos m)) in *. set (N := inject_Z n) in *.
      assert (T1 : (2 * Kq * N * u <= (2 * M + Kq) * u)%Q)
        by (apply Qmult_le_compat_r; lra).
      assert (T2 : ((2 * M + Kq) * u < 2 * Kq * (N + 1) * u)%Q)
        by (apply Qmult_lt_compat_r; lra).
      assert (E1 : (2 * Kq * N * u == 2 * N * (Kq * u))%Q) by ring.
      assert (E2 : ((2 * M + Kq) * u == 2 * (M * u) + Kq * u)%Q) by ring.
      assert (E3 : (2 * Kq * (N + 1) * u == (2 * N + 2) * (Kq * u))%Q) by ring.
      rewrite E1, E2, EQ in T1. rewrite E2, E3, EQ in T2.
      split; lra.
Qed.

Lemma tenths_format (t : Z) :
  0 <= t ->
  (let ds := JS.digits_of t in
   let ds := if Z.of_nat (List.length ds) <=? 1 then 48%N :: ds else ds in
   let k := List.length ds in
   firstn (k - 1) ds ++ JS.str "." ++ skipn (k - 1) ds)
  = tenths t.
Proof.
  intros Ht. unfold tenths. cbv zeta.
  destruct (Z_lt_ge_dec t 10) as [H | H].
  - rewrite Z.div_small, Z.mod_small by lia.
    rewrite (digits_of_digit t) by lia. reflexivity.
  - pose proof (Z.mod_pos_bound t 10 ltac:(lia)) as Hr.
    assert (Hq : 1 <= t / 10).
    { assert (0 < t / 10) by (apply Z.div_str_pos; lia). lia. }
    destruct (digits_of_length (t / 10) Hq) as (L1 & _).
    rewrite (digits_of_step t) by lia.
    rewrite (digits_of_digit (t mod 10)) by lia.
    set (a := JS.digits_of (t / 10)) in *.
    rewrite length_app. cbn [List.length].
    replace (Z.of_nat (List.length a + 1) <=? 1) with false
      by (symmetry; apply Z.leb_gt; lia).
    rewrite length_app. cbn [List.length].
    replace (List.length a + 1 - 1)%nat with (List.length a + 0)%nat by lia.
    rewrite firstn_app_2, skipn_app, Nat.add_0_r.
    cbn [firstn]. rewrite List.app_nil_r.
    rewrite skipn_all. 
    replace (List.length a - List.length a)%nat with 0%nat by lia.
    reflexivity.
Qed.

(** [toFixed(1)] of a number that is not negative: the value in tenths,
    as the floor of ten times the value plus a half. *)
Lemma toFixed1_tenths (x : JS.number) (E : Z) :
  nonneg E x -> E < 0 ->
  exists t, 0 <= t
    /\ JS.toFixed1 x = tenths t
    /\ (2 * inject_Z t <= 20 * value x + 1
        /\ 20 * value x - 1 < 2 * inject_Z t)%Q.
Proof.
  intros [-> | (m & e & -> & He)] HE.
  - exists 0. split; [lia | split; [reflexivity | ]]. cbn [value].
    change (inject_Z 0) with 0%Q. split; lra.
  - set (K := 2 ^ (- e)).
    assert (PK : 0 < K) by (apply Z.pow_pos_nonneg; lia).
    set (t := (20 * Z.pos m + K) / (2 * K)).
    assert (Ht : 0 <= t) by (apply Z.div_pos; lia).
    exists t. split; [exact Ht | ]. split.
    + unfold JS.toFixed1.
      assert (Hlt : SFltb (S754_finite false m e) (JS.ofZ (10 ^ 21)) = true).
      { assert (Ebig : exists M, JS.ofZ (10 ^ 21) = S754_finite false M 17)
          by (eexists; vm_compute; reflexivity).
        destruct Ebig as (M & ->). unfold SFltb. cbn [SFcompare].
        replace (e ?= 17) with Lt; [reflexivity | ].
        symmetry. apply Z.compare_lt_iff. lia. }
      rewrite Hlt. unfold JS.ratio_of.
      replace (0 <=? e) with false by (symmetry; apply Z.leb_gt; lia).
      fold K. fold t. cbn [app]. apply tenths_format. exact Ht.
    + assert (F1 : 2 * K * t <= 20 * Z.pos m + K).
      { unfold t. apply Z.mul_div_le. lia. }
      assert (F2 : 20 * Z.pos m + K < 2 * K * (t + 1)).
      { unfold t.
        pose proof (Z.mul_succ_div_gt (20 * Z.pos m + K) (2 * K) ltac:(lia)).
        lia. }
      pose proof (Q2_pow_inv e ltac:(lia)) as EQ. fold K in EQ.
      pose proof (Q2_pow_pos e) as Pu.
      to_Q F1. to_Q F2. change (inject_Z 20) with 20%Q in *.
      cbn [value cond_Zopp].
      set (u := (2 ^ e)%Q) in *. set (Kq := inject_Z K) in *.
      set (M := inject_Z (Z.pos m)) in *. set (N := inject_Z t) in *.
      assert (T1 : (2 * Kq * N * u <= (20 * M + Kq) * u)%Q)
        by (apply Qmult_le_compat_r; lra).
      assert (T2 : ((20 * M + Kq) * u < 2 * Kq * (N + 1) * u)%Q)
        by (apply Qmult_lt_compat_r; lra).
      assert (E1 : (2 * Kq * N * u == 2 * N * (Kq * u))%Q) by ring.
      assert (E2 : ((20 * M + Kq) * u == 20 * (M * u) + Kq * u)%Q) by ring.
      assert (E3 : (2 * Kq * (N + 1) * u == (2 * N + 2) * (Kq * u))%Q) by ring.
      rewrite E1, E2, EQ in T1. rewrite E2, E3, EQ in T2.
      split; lra.
Qed.

(** ** Percentages *)

Ltac q_consts :=
  change ((2 ^ 1)%Q) with 2%Q in *;
  change ((2 ^ 7)%Q) with 128%Q in *;
  change ((2 ^ 32)%Q) with 4294967296%Q in *;
  change ((2 ^ (-52))%Q) with (1 # 4503599627370496)%Q in *;
  change ((2 ^ (-46))%Q) with (1 # 70368744177664)%Q in *;
  change ((2 ^ (-21))%Q) with (1 # 2097152)%Q in *;
  change (inject_Z 100) with 100%Q in *.

Lemma pixel_Q (H : Z) :
  1 <= H <= 2147483647 ->
  (1 <= inject_Z H /\ inject_Z H <= 2147483647)%Q.
Proof.
  intros [H1 H2]. rewrite Zle_Qle in H1, H2. split; assumption.
Qed.

(** The pixels of a percentage of [H]: within half a pixel, and a rounding
    error below a thousandth of a percent of a pixel. *)
Lemma percent_pixels (num : JS.number) (H : Z) :
  percentage num -> 1 <= H <= 2147483647 ->
  exists n, 0 <= n
    /\ JS.Math_round (JS.mul (JS.div num (JS.ofZ 100)) (JS.ofZ H)) = JS.ofZ n
    /\ (100 * inject_Z n <= value num * inject_Z H + 50 + (1 # 1000)
        /\ value num * inject_Z H - 50 - (1 # 1000) <= 100 * inject_Z n)%Q.
Proof.
  intros ((Ex & Hx) & Hle) HH.
  destruct (pixel_Q H HH) as [HQ1 HQ2].
  pose proof (value_nonneg _ _ Hx) as Hn0.
  destruct (div_crude num 100 1 (-52) Ex Hx) as (A1 & A2 & A3);
    try lia; [q_consts; lra | ].
  set (a := JS.div num (JS.ofZ 100)) in *.
  pose proof (value_nonneg _ _ A1) as Ha0.
  change (-52 + 1) with (-51) in A1. q_consts.
  assert (Ha1 : (value a * inject_Z H <= (1 + (1 # 1000000)) * inject_Z H)%Q)
    by (apply Qmult_le_compat_r; lra).
  destruct (mul_crude a H 32 (-21) (-51) A1) as (B1 & B2 & B3);
    try lia; [q_consts; lra | ].
  set (b := JS.mul a (JS.ofZ H)) in *.
  change (-21 + 1) with (-20) in B1. q_consts.
  destruct (Math_round_floor b (-20) B1 ltac:(lia)) as (n & N0 & N1 & N2 & N3).
  exists n. split; [exact N0 | split; [exact N1 | ]].
  assert (T1 : (value a * 100 * inject_Z H
                <= (value num + (1 # 4503599627370496) * 100) * inject_Z H)%Q)
    by (apply Qmult_le_compat_r; lra).
  assert (T2 : ((value num - 4 * (1 # 4503599627370496) * 100) * inject_Z H
                <= value a * 100 * inject_Z H)%Q)
    by (apply Qmult_le_compat_r; lra).
  split; lra.
Qed.

(** The percentage shown for [n] pixels of [H]: within a twentieth of a
    percent, and a rounding error. *)
Lemma percent_shown (n H : Z) :
  0 <= n <= H -> 1 <= H <= 2147483647 ->
  exists t, 0 <= t
    /\ getDisplayValue true (JS.ofZ n) (JS.ofZ H) = tenths t
    /\ (2 * inject_Z H * inject_Z t
        <= 2000 * inject_Z n + inject_Z H + (1 # 50)
        /\ 2000 * inject_Z n - inject_Z H - (1 # 50)
           <= 2 * inject_Z H * inject_Z t)%Q.
Proof.
  intros Hn HH.
  destruct (pixel_Q H HH) as [HQ1 HQ2].
  assert (Hn53 : 0 <= n < 2 ^ 53)
    by (change (2 ^ 53) with 9007199254740992; lia).
  pose proof (ofZ_nonneg n Hn53) as Hx.
  pose proof (value_ofZ n Hn53) as Vn.
  assert (HnQ : (0 <= inject_Z n /\ inject_Z n <= inject_Z H)%Q)
    by (change 0%Q with (inject_Z 0); rewrite <- !Zle_Qle; lia).
  destruct (div_crude (JS.ofZ n) H 1 (-52) 0 Hx) as (A1 & A2 & A3);
    try lia; [rewrite Vn; q_consts; lra | ].
  set (c := JS.div (JS.ofZ n) (JS.ofZ H)) in *.
  pose proof (value_nonneg _ _ A1) as Hc0.
  change (-52 + 1) with (-51) in A1. rewrite Vn in A2, A3. q_consts.
  assert (Hc1 : (value c <= 1 + (1 # 4503599627370496))%Q).
  { apply (Qmult_le_r _ _ (inject_Z H)); [lra | ]. lra. }
  destruct (mul_crude c 100 7 (-46) (-51) A1) as (B1 & B2 & B3);
    try lia; [q_consts; lra | ].
  set (d := JS.mul c (JS.ofZ 100)) in *.
  change (-46 + 1) with (-45) in B1. q_consts.
  destruct (toFixed1_tenths d (-45) B1 ltac:(lia)) as (t & T0 & T1 & T2 & T3).
  exists t. split; [exact T0 | split; [exact T1 | ]].
  assert (Ht0 : (0 <= inject_Z t)%Q)
    by (change 0%Q with (inject_Z 0); rewrite <- Zle_Qle; lia).
  assert (U1 : (2 * inject_Z t * inject_Z H
                <= (20 * value d + 1) * inject_Z H)%Q)
    by (apply Qmult_le_compat_r; lra).
  assert (U2 : ((20 * value d - 1) * inject_Z H
                <= 2 * inject_Z t * inject_Z H)%Q)
    by (apply Qmult_le_compat_r; lra).
  assert (U3 : (value d * inject_Z H
                <= (value c * 100 + (1 # 70368744177664)) * inject_Z H)%Q)
    by (apply Qmult_le_compat_r; lra).
  assert (U4 : ((value c * 100 - 3 * (1 # 70368744177664)) * inject_Z H
                <= value d * inject_Z H)%Q)
    by (apply Qmult_le_compat_r; lra).
  split; lra.
Qed.

(** ** The bottom inset, typed and read back *)

Lemma tenth_Q (t : Z) : (t # 10 == inject_Z t * (1 # 10))%Q.
Proof. unfold Qeq. cbn. lia. Qed.

Lemma height_or_1_loaded (st : EditorState) (img : HTMLImageElement) :
  imageObj st = Some img ->
  1 <= Z.of_N (naturalHeight img) < 2 ^ 53 ->
  height_or_1 st = img_height img.
Proof.
  intros Himg HH. unfold height_or_1, img_height. rewrite Himg.
  destruct (Z.of_N (naturalHeight img)) as [ | p | p]; try lia.
  rewrite ofZ_pos by lia. reflexivity.
Qed.

(** What the bottom inset field shows after an edit whose text parses to
    the whole number [n]. *)
Lemma bottom_inset_after (valueStr : JS.jsstring) (st : EditorState)
  (img : HTMLImageElement) (cy n : Z) :
  imageObj st = Some img ->
  y (crop st) = JS.ofZ cy ->
  parseInputValue (usePercent st) valueStr (img_height img) = JS.ofZ n ->
  0 <= cy <= Z.of_N (naturalHeight img) ->
  1 <= Z.of_N (naturalHeight img) ->
  safe (Z.of_N (naturalHeight img)) -> safe n ->
  insetValue bottom_inset (updateCropInset bottom_inset valueStr st)
  = getDisplayValue (usePercent st)
      (JS.ofZ (Z.of_N (naturalHeight img)
               - (cy + Z.max 10 (Z.of_N (naturalHeight img) - cy - n))))
      (img_height img).
Proof.
  intros Himg Hy Hval Hcy H1 HH Hn.
  unfold insetValue.
  destruct (updateCropInset_frame bottom_inset valueStr st) as [Fi Fu].
  rewrite (height_or_1_loaded _ img) by (rewrite ?Fi; trivial; safe_lia).
  rewrite Fi, Fu, Himg. unfold updateCropInset. rewrite Himg.
  cbn [crop setCrop y height]. rewrite Hval, Hy. unfold img_height.
  rewrite sub_exact, sub_exact, Math_max_exact, add_exact, sub_exact
    by safe_lia.
  reflexivity.
Qed.

Ltac pixel_bounds :=
  unfold pixel, safe in *;
  change (2 ^ 50) with 1125899906842624 in *;
  change (2 ^ 53) with 9007199254740992 in *;
  change (10 ^ 15) with 1000000000000000 in *;
  lia.

Lemma isNaN_ofZ (z : Z) : Z.abs z < 2 ^ 53 -> JS.isNaN (JS.ofZ z) = false.
Proof.
  intros Hz. destruct (Z.eq_dec z 0) as [-> | Hne]; [reflexivity | ].
  destruct (ofZ_canon z Hne Hz) as (-> & _). reflexivity.
Qed.

(** In pixel mode the numeral of an integer parses to that integer. *)
Lemma parse_pixels (v : Z) (max : JS.number) :
  0 <= v < 2 ^ 53 ->
  parseInputValue false (JS.digits_of v) max = JS.ofZ v.
Proof.
  intros Hv. unfold parseInputValue.
  rewrite parseFloat_digits_of, isNaN_ofZ, Math_round_exact by lia.
  reflexivity.
Qed.

Lemma show_pixels (k : Z) (max : JS.number) :
  0 <= k < 10 ^ 15 -> getDisplayValue false (JS.ofZ k) max = JS.digits_of k.
Proof.
  intros Hk. unfold getDisplayValue.
  rewrite Math_round_exact, toString_int by pixel_bounds. reflexivity.
Qed.

Lemma nonneg_not_NaN (E : Z) (x : JS.number) : nonneg E x -> JS.isNaN x = false.
Proof. intros [-> | (m & e & -> & _)]; reflexivity. Qed.

(** C8, amended.  On a loaded image of height H, with the crop starting at
    the whole row y, at most H - 10:

    - in pixel mode, a whole number v from 0 on, typed as its decimal
      numeral, reads back as exactly that numeral when v <= H - y - 10;
      a greater v is clamped, and the numeral of H - y - 10 reads back;

    - in percent mode, a percentage typed (a number from 0 to 100, as
      [parseFloat] reads it) is turned into the whole number n of pixels
      within half a pixel of that share of H; when n <= H - y - 10 the
      field reads back a text of one decimal that is within
      0.05 + 50.05 / H of the number typed, so within 0.1 of it from
      H = 1001 on; a greater n is clamped, and the field shows the
      percentage of H - y - 10. *)
Theorem bottom_inset_round_trip (valueStr : JS.jsstring) (st : EditorState)
  (img : HTMLImageElement) (cy : Z)
  (Himg : imageObj st = Some img)
  (Hy : y (crop st) = JS.ofZ cy)
  (HH : pixel (Z.of_N (naturalHeight img)))
  (Hcy : 0 <= cy <= Z.of_N (naturalHeight img) - 10) :
  let H := Z.of_N (naturalHeight img) in
  let typed := JS.parseFloat valueStr in
  let shown :=
    insetValue bottom_inset (updateCropInset bottom_inset valueStr st) in
  (usePercent st = false ->
   forall v : Z,
     0 <= v -> safe v -> valueStr = JS.digits_of v ->
     (v <= H - cy - 10 -> shown = valueStr)
     /\ (H - cy - 10 < v -> shown = JS.digits_of (H - cy - 10)))
  /\ (usePercent st = true ->
      percentage typed ->
      exists n : Z,
        parseInputValue true valueStr (img_height img) = JS.ofZ n
        /\ 0 <= n
        /\ (Qabs (inject_Z n - value typed * inject_Z H * (1 # 100))
            <= (1 # 2) + (1 # 100000))%Q
        /\ (n <= H - cy - 10 ->
            exists t : Z,
              shown = tenths t
              /\ within ((1 # 20) + (1001 # 20) / inject_Z H) t typed
              /\ (1001 <= H -> within (1 # 10) t typed))
        /\ (H - cy - 10 < n ->
            shown
            = getDisplayValue true (JS.ofZ (H - cy - 10)) (img_height img))).
Proof.
  cbv zeta. set (H := Z.of_N (naturalHeight img)) in *.
  assert (H10 : 10 <= H <= 2147483647) by (unfold pixel in HH; lia).
  split.
  - intros Hp v Hv0 Hvs ->.
    assert (Hval : parseInputValue (usePercent st) (JS.digits_of v)
                     (img_height img) = JS.ofZ v)
      by (rewrite Hp; apply parse_pixels; pixel_bounds).
    rewrite (bottom_inset_after _ st img cy v Himg Hy Hval)
      by (fold H; pixel_bounds).
    fold H. rewrite Hp. split; intros Hc.
    + replace (H - (cy + Z.max 10 (H - cy - v))) with v by lia.
      apply show_pixels. pixel_bounds.
    + replace (H - (cy + Z.max 10 (H - cy - v))) with (H - cy - 10) by lia.
      apply show_pixels. pixel_bounds.
  - intros Hp Hpc.
    destruct (percent_pixels (JS.parseFloat valueStr) H Hpc ltac:(lia))
      as (n & N0 & N1 & N2 & N3).
    destruct Hpc as ((Ex & Hx) & Hle).
    pose proof (value_nonneg _ _ Hx) as V0.
    destruct (pixel_Q H ltac:(lia)) as [HQ1 HQ2].
    set (V := value (JS.parseFloat valueStr)) in *.
    assert (VH : (V * inject_Z H <= 100 * inject_Z H)%Q)
      by (apply Qmult_le_compat_r; lra).
    assert (NH : n <= H).
    { assert (G : (inject_Z n < inject_Z (H + 1))%Q).
      { rewrite inject_Z_plus. change (inject_Z 1) with 1%Q. lra. }
      rewrite <- Zlt_Qlt in G. lia. }
    assert (Hval : parseInputValue (usePercent st) valueStr (img_height img)
                   = JS.ofZ n).
    { rewrite Hp. unfold parseInputValue.
      rewrite (nonneg_not_NaN _ _ Hx). exact N1. }
    exists n. split; [now rewrite <- Hp | ]. split; [exact N0 | ]. split.
    { apply Qabs_Qle_condition. split; lra. }
    rewrite (bottom_inset_after _ st img cy n Himg Hy Hval)
      by (fold H; pixel_bounds).
    fold H. rewrite Hp. split; intros Hc.
    + replace (H - (cy + Z.max 10 (H - cy - n))) with n by lia.
      destruct (percent_shown n H ltac:(lia) ltac:(lia))
        as (t & T0 & T1 & T2 & T3).
      exists t. split; [exact T1 | ].
      assert (EW : (inject_Z H * / inject_Z H == 1)%Q)
        by (apply Qmult_inv_r; lra).
      set (w := (/ inject_Z H)%Q) in *.
      assert (G : within ((1 # 20) + (1001 # 20) / inject_Z H) t
                    (JS.parseFloat valueStr)).
      { unfold within. fold V. rewrite tenth_Q. unfold Qdiv. fold w.
        apply Qabs_Qle_condition. split.
        - apply (Qmult_le_r _ _ (20 * inject_Z H)); [lra | ].
          setoid_replace (- ((1 # 20) + (1001 # 20) * w) * (20 * inject_Z H))%Q
            with (- inject_Z H - 1001 * (inject_Z H * w))%Q by ring.
          setoid_replace ((inject_Z t * (1 # 10) - V) * (20 * inject_Z H))%Q
            with (2 * inject_Z H * inject_Z t - 20 * (V * inject_Z H))%Q
            by ring.
          rewrite EW. lra.
        - apply (Qmult_le_r _ _ (20 * inject_Z H)); [lra | ].
          setoid_replace (((1 # 20) + (1001 # 20) * w) * (20 * inject_Z H))%Q
            with (inject_Z H + 1001 * (inject_Z H * w))%Q by ring.
          setoid_replace ((inject_Z t * (1 # 10) - V) * (20 * inject_Z H))%Q
            with (2 * inject_Z H * inject_Z t - 20 * (V * inject_Z H))%Q
            by ring.
          rewrite EW. lra. }
      split; [exact G | ]. intros H1001.
      unfold within in *. eapply Qle_trans; [exact G | ].
      assert (HQ3 : (1001 <= inject_Z H)%Q).
      { change 1001%Q with (inject_Z 1001). now rewrite <- Zle_Qle. }
      unfold Qdiv. fold w.
      apply (Qmult_le_r _ _ (20 * inject_Z H)); [lra | ].
      setoid_replace (((1 # 20) + (1001 # 20) * w) * (20 * inject_Z H))%Q
        with (inject_Z H + 1001 * (inject_Z H * w))%Q by ring.
      rewrite EW. lra.
    + replace (H - (cy + Z.max 10 (H - cy - n))) with (H - cy - 10) by lia.
      reflexivity.
Qed.

Lemma bottom_inset_round_trip_witness :
  (imageObj fallback_session = Some small_image
   /\ y (crop fallback_session) = JS.ofZ 0
   /\ usePercent fallback_session = false
   /\ JS.str "5" = JS.digits_of 5
   /\ insetValue bottom_inset
        (updateCropInset bottom_inset (JS.str "5") fallback_session)
      = JS.str "5")
  /\ (imageObj tall_session = Some tall_image
      /\ y (crop tall_session) = JS.ofZ 0
      /\ usePercent tall_session = true
      /\ percentage (JS.parseFloat (JS.str "12.3"))
      /\ exists t : Z,
           insetValue bottom_inset
             (updateCropInset bottom_inset (JS.str "12.3") tall_session)
           = tenths t
           /\ within (1 # 10) t (JS.parseFloat (JS.str "12.3"))).
Proof.
  split.
  - split; [reflexivity | split; [reflexivity | split; [reflexivity | ]]].
    split; [reflexivity | ].
    assert (HH : pixel (Z.of_N (naturalHeight small_image)))
      by (unfold pixel; cbn; lia).
    assert (Hcy : 0 <= 0 <= Z.of_N (naturalHeight small_image) - 10)
      by (cbn; lia).
    assert (Hs : safe 5) by (unfold safe; cbn; lia).
    destruct (bottom_inset_round_trip (JS.str "5") fallback_session
                small_image 0 eq_refl eq_refl HH Hcy) as [P _].
    apply (proj1 (P eq_refl 5 ltac:(lia) Hs eq_refl)). cbn. lia.
  - assert (Hpc : percentage (JS.parseFloat (JS.str "12.3"))).
    { split.
      - exists 0. right. eexists; eexists.
        split; [vm_compute; reflexivity | lia].
      - vm_compute. discriminate. }
    split; [reflexivity | split; [reflexivity | split; [reflexivity | ]]].
    split; [exact Hpc | ].
    assert (HH : pixel (Z.of_N (naturalHeight tall_image)))
      by (unfold pixel; cbn; lia).
    assert (Hcy : 0 <= 0 <= Z.of_N (naturalHeight tall_image) - 10)
      by (cbn; lia).
    destruct (bottom_inset_round_trip (JS.str "12.3") tall_session
                tall_image 0 eq_refl eq_refl HH Hcy) as [_ P].
    destruct (P eq_refl Hpc) as (n & Hpar & Hn0 & Hhalf & Hun & _).
    assert (Hn : n <= Z.of_N (naturalHeight tall_image) - 0 - 10).
    { apply Qabs_Qle_condition in Hhalf. destruct Hhalf as [_ Hhalf].
      assert (E : (value (JS.parseFloat (JS.str "12.3"))
                   * inject_Z (Z.of_N (naturalHeight tall_image)) * (1 # 100)
                   <= 126)%Q) by (vm_compute; discriminate).
      assert (G : (inject_Z n <= inject_Z 1014)%Q)
        by (change (inject_Z 1014) with 1014%Q; lra).
      rewrite <- Zle_Qle in G. cbn. lia. }
    destruct (Hun Hn) as (t & T1 & _ & T3).
    exists t. split; [exact T1 | ]. apply T3. cbn. lia.
Defined.

(** C8, as stated, fails.  On a 100 by 100 image with the full image as
    crop, a bottom inset of 95 pixels reads back as 90 and one of 2.5 pixels
    as 3; a bottom inset of 0.4 percent reads back as 0.0, which is 0.4
    away.  On the 1000 by 800 image of the scenario a bottom inset of 0.19
    percent reads back as 0.3, more than 0.1 away. *)
Lemma bottom_inset_counterexample :
  insetValue bottom_inset
    (updateCropInset bottom_inset (JS.str "95") fallback_session)
  = JS.str "90"
  /\ insetValue bottom_inset
       (updateCropInset bottom_inset (JS.str "2.5") fallback_session)
     = JS.str "3"
  /\ (let st := setUsePercent true fallback_session in
      let shown :=
        insetValue bottom_inset (updateCropInset bottom_inset (JS.str "0.4") st) in
      shown = JS.str "0.0"
      /\ JS.gt (JS.sub (JS.parseFloat (JS.str "0.4")) (JS.parseFloat shown))
           (JS.parseFloat (JS.str "0.1")) = true)
  /\ (let st := setUsePercent true scenario in
      let shown :=
        insetValue bottom_inset
          (updateCropInset bottom_inset (JS.str "0.19") st) in
      shown = JS.str "0.3"
      /\ JS.gt (JS.sub (JS.parseFloat shown) (JS.parseFloat (JS.str "0.19")))
           (JS.parseFloat (JS.str "0.1")) = true).
Proof. vm_compute. repeat split. Qed.
